(** * serverless-catbox-memory: a shallow embedding of [lib/index.js]

    The engine is a JavaScript object with three mutable fields
    ([settings], [cache], [byteSize]); its methods read the system clock
    through [Date.now()] and report their outcome to a callback.  Here

    - the object is a record [Connection] and every method is a function
      from the state before the call to the outcome handed to the callback
      and the state after it;
    - [this.cache] is [None] for [null], and otherwise a two-level finite
      map (segment name, then id) of entries, the JavaScript objects used
      as dictionaries being [gmap string _];
    - the clock is an oracle [Date : nat -> Z]: the [n]-th call of
      [Date.now()] made by the process returns [Date n], and the state
      carries the number of calls made so far, so that a method which
      reads the clock several times sees one reading per call site;
    - numbers are [Z] (the code only adds, subtracts and compares
      integers far below 2^53, where JavaScript numbers are exact);
    - strings are byte strings (their UTF-8 encoding), so that
      [Buffer.byteLength] is the length;
    - [JSON.stringify] and [JSON.parse] belong to the platform, not to the
      library: they are the two operations of the class [JSON].

    Two things a finite map does not have are kept out of the statements
    rather than modelled.

    - A JavaScript object answers [o[name]] through its prototype chain:
      for the names of [Object_prototype_names] the code finds inherited
      functions and objects where a map finds nothing, and an assignment
      to [__proto__] replaces the prototype.  The definitions below are
      the code's behaviour on names that are not inherited ([own_name]),
      in states whose segment names and ids are of that kind
      ([plain_store]); a theorem whose statement depends on what a lookup
      by name misses, or on what a deletion or an assignment by name does,
      carries these as hypotheses, and operations on plain keys keep the
      cache plain ([plain_run]).
    - [Object.keys] lists keys in insertion order (integer-like names
      first); [Object_keys] lists them in the order of [map_to_list].  The
      order decides what the sweep removes only when the clock moves while
      the sweep runs; a theorem that mentions the state after a sweep
      either bounds all the readings or supposes the clock stands still
      during the call. *)

From Stdlib Require Import ZArith String Ascii DecimalString.
From Stdlib.Strings Require Import Byte.
From stdpp Require Import base option gmap strings list fin_maps.

Local Open Scope Z_scope.

(** ** Values, snapshots and entries *)

(** A JavaScript value as the engine distinguishes them: a [Buffer]
    ([Buffer.isBuffer] answers true) or anything else. *)
Inductive jsvalue (V : Type) : Type :=
  | Buffer (bytes : list byte)
  | Plain (v : V).
Arguments Buffer {V} bytes.
Arguments Plain {V} v.

(** [JSON_stringify v = None] stands for a call that yields no string:
    it throws, as on a cyclic structure, or it returns [undefined], as on
    [undefined] itself, and [Buffer.byteLength] then throws in its place.
    [JSON_parse s = None] stands for a [SyntaxError], which
    [internals.parseJSON] turns into an [Error] value. *)
Class JSON (V : Type) := {
  JSON_stringify : jsvalue V -> option string;
  JSON_parse : string -> option V
}.

Definition Buffer_byteLength (s : string) : Z := Z.of_nat (String.length s).

(** What [this.item] holds: the copied buffer or the serialized text. *)
Inductive snapshot : Type :=
  | ItemBuffer (bytes : list byte)
  | ItemText (s : string).

Record CacheKey := { segment : string; id : string }.

Module Entry.

Record t := mk {
  item : snapshot;
  stored : Z;
  ttl : Z;
  expireTime : Z;
  byteSize : Z
}.

End Entry.

(** ** The connection *)

Record Settings := {
  maxByteSize : Z;
  allowMixedContent : bool
}.

Record Connection := {
  settings : Settings;
  cache : option (gmap string (gmap string Entry.t));
  byteSize : Z
}.

(** The connection together with the number of clock readings made. *)
Record World := {
  this : Connection;
  clock : nat
}.

Definition with_this (f : Connection -> Connection) (w : World) : World :=
  {| this := f (this w); clock := clock w |}.

Definition set_cache (c : option (gmap string (gmap string Entry.t)))
    (conn : Connection) : Connection :=
  {| settings := settings conn; cache := c; byteSize := byteSize conn |}.

Definition set_byteSize (n : Z) (conn : Connection) : Connection :=
  {| settings := settings conn; cache := cache conn; byteSize := n |}.

(** The errors passed to callbacks. *)
Inductive Error : Type :=
  | ConnectionNotStarted   (* 'Connection not started' *)
  | InvalidTtl             (* 'Invalid ttl (greater than 2147483647)' *)
  | EncodingError          (* whatever [new MemoryCacheEntry] threw *)
  | BadValueContent        (* 'Bad value content' *)
  | CacheSizeLimit.        (* 'Unable to store cache entry, cache size limit reached.' *)

Inductive result (A : Type) : Type :=
  | Ok (a : A)
  | Err (e : Error).
Arguments Ok {A} a.
Arguments Err {A} e.

(** What [get] hands to its callback on a hit. *)
Record Cached (V : Type) := mkCached {
  cached_item : jsvalue V;
  cached_stored : Z;
  cached_ttl : Z
}.
Arguments mkCached {V} _ _ _.
Arguments cached_item {V} _.
Arguments cached_stored {V} _.
Arguments cached_ttl {V} _.

(** [internals.defaults] *)
Definition defaults : Settings :=
  {| maxByteSize := 100 * 1024 * 1024; allowMixedContent := false |}.

(** What [options.allowMixedContent] holds when it is given: a boolean or
    a value of any other type. *)
Inductive jsflag : Type :=
  | JsBoolean (b : bool)
  | JsNotBoolean.

(** The options object of the constructor; [None] is [undefined].
    [maxByteSize], when given, is an integer. *)
Record Options := {
  opt_maxByteSize : option Z;
  opt_allowMixedContent : option jsflag
}.

(** [Hoek.applyToDefaults(internals.defaults, options)].  A flag that is
    not a boolean never gets here: the constructor has thrown. *)
Definition applyToDefaults (d : Settings) (o : Options) : Settings :=
  {| maxByteSize := default (maxByteSize d) (opt_maxByteSize o);
     allowMixedContent :=
       match opt_allowMixedContent o with
       | Some (JsBoolean b) => b
       | _ => allowMixedContent d
       end |}.

(** The expression [new MemoryCache(options)], for which the first assert
    (instantiated using [new]) holds: [None] when one of the two asserts on
    the options throws.  The constructor leaves [this.byteSize] undefined;
    no method reads it before [start] or [stop] has assigned it, and it is
    0 here. *)
Definition MemoryCache (options : option Options) : option Connection :=
  let maxByteSize_ok :=
    match options with
    | Some {| opt_maxByteSize := Some m |} => bool_decide (0 <= m)
    | _ => true
    end in
  let allowMixedContent_ok :=
    match options with
    | Some {| opt_allowMixedContent := Some JsNotBoolean |} => false
    | _ => true
    end in
  if maxByteSize_ok && allowMixedContent_ok then
    Some {| settings := applyToDefaults defaults
                          (default {| opt_maxByteSize := None;
                                      opt_allowMixedContent := None |} options);
            cache := None;
            byteSize := 0 |}
  else None.

(** [Object.keys(o)]: every own key once.  The code gets them in
    insertion order, this list is in the order of [map_to_list]. *)
Definition Object_keys {A} (o : gmap string A) : list string :=
  (map_to_list o).*1.

(** The names every object inherits from [Object.prototype]; a segment,
    built by [new MemoryCacheSegment()], inherits the same ones. *)
Definition Object_prototype_names : list string :=
  ["constructor"; "__defineGetter__"; "__defineSetter__"; "hasOwnProperty";
   "__lookupGetter__"; "__lookupSetter__"; "isPrototypeOf";
   "propertyIsEnumerable"; "toString"; "valueOf"; "__proto__";
   "toLocaleString"]%string.

(** A name that an object answers for only when it is an own property. *)
Definition own_name (name : string) : Prop := name ∉ Object_prototype_names.

#[export] Instance own_name_dec (name : string) : Decision (own_name name).
Proof. unfold own_name. apply _. Defined.

Definition plain_key (key : CacheKey) : Prop :=
  own_name (segment key) /\ own_name (id key).

(** A cache in which no segment name and no id is an inherited name: the
    caches that only operations on plain keys build, and the ones a
    two-level finite map stands for. *)
Definition plain_store (st : gmap string (gmap string Entry.t)) : Prop :=
  forall s seg,
    st !! s = Some seg ->
    own_name s /\ forall i e, seg !! i = Some e -> own_name i.

(** [cache[key.segment][key.id]], [None] when either level is missing;
    the code's answer for a [plain_key] in a [plain_store]. *)
Definition lookup_entry (key : CacheKey)
    (st : gmap string (gmap string Entry.t)) : option Entry.t :=
  match st !! segment key with
  | Some seg => seg !! id key
  | None => None
  end.

Section Engine.

Context {V : Type} `{JSON V}.

(** [Date n] is what the [n]-th call of [Date.now()] returns. *)
Variable Date : nat -> Z.

Definition Date_now (w : World) : Z * World :=
  (Date (clock w), {| this := this w; clock := S (clock w) |}).

(** [new internals.MemoryCacheEntry(key, value, ttl, allowMixedContent)];
    [None] when [JSON.stringify] throws, which happens before the clock is
    read. *)
Definition MemoryCacheEntry (key : CacheKey) (value : jsvalue V) (ttl : Z)
    (allowMixed : bool) (w : World) : option Entry.t * World :=
  let encoded : option (snapshot * Z) :=
    match allowMixed, value with
    | true, Buffer bytes => Some (ItemBuffer bytes, Z.of_nat (length bytes))
    | _, _ =>
        match JSON_stringify value with
        | Some s => Some (ItemText s, Buffer_byteLength s)
        | None => None
        end
    end in
  match encoded with
  | None => (None, w)
  | Some (it, valueByteSize) =>
      let '(now, w) := Date_now w in
      (Some {| Entry.item := it;
               Entry.stored := now;
               Entry.ttl := ttl;
               Entry.expireTime := now + ttl;
               Entry.byteSize := 144 + valueByteSize
                                 + Buffer_byteLength (segment key)
                                 + Buffer_byteLength (id key) |}, w)
  end.

Definition start (w : World) : result unit * World :=
  match cache (this w) with
  | None => (Ok (), with_this (fun c => set_byteSize 0 (set_cache (Some ∅) c)) w)
  | Some _ => (Ok (), w)
  end.

Definition stop (w : World) : World :=
  with_this (fun c => set_byteSize 0 (set_cache None c)) w.

Definition isReady (w : World) : bool :=
  match cache (this w) with Some _ => true | None => false end.

(** [dropKey] is called by [drop] and [flushExpiredCacheItems] only, both
    after they have checked [this.cache]; on [null] (where the code would
    throw) it is the identity here.  The two lookups and the [delete] are
    those of the code for a [plain_key] in a [plain_store]. *)
Definition dropKey (key : CacheKey) (c : Connection) : Connection :=
  match cache c with
  | None => c
  | Some st =>
      match st !! segment key with
      | None => c
      | Some seg =>
          let c :=
            match seg !! id key with
            | Some it => set_byteSize (byteSize c - Entry.byteSize it) c
            | None => c
            end in
          set_cache (Some (<[segment key := delete (id key) seg]> st)) c
      end
  end.

Definition drop (key : CacheKey) (w : World) : result unit * World :=
  match cache (this w) with
  | None => (Err ConnectionNotStarted, w)
  | Some _ => (Ok (), with_this (dropKey key) w)
  end.

(** The inner loop of [flushExpiredCacheItems] over the ids of one
    segment.  The ids were listed before the loop; the entry is read from
    the cache as it is when its id comes up, after the clock.  Nothing but
    this loop removes an id in the meantime, so the entry is there and the
    [None] arm is not taken. *)
Fixpoint flushSegment (seg : string) (keys : list string) (w : World) : World :=
  match keys with
  | [] => w
  | key :: keys =>
      let '(now, w) := Date_now w in
      let w :=
        match cache (this w) ≫= lookup_entry {| segment := seg; id := key |} with
        | Some e =>
            if bool_decide (now > Entry.expireTime e)
            then with_this (dropKey {| segment := seg; id := key |}) w
            else w
        | None => w
        end in
      flushSegment seg keys w
  end.

Fixpoint flushSegments (segments : list string) (w : World) : World :=
  match segments with
  | [] => w
  | seg :: segments =>
      let keys :=
        match cache (this w) ≫= (.!! seg) with
        | Some o => Object_keys o
        | None => []
        end in
      flushSegments segments (flushSegment seg keys w)
  end.

Definition flushExpiredCacheItems (w : World) : World :=
  match cache (this w) with
  | None => w
  | Some st => flushSegments (Object_keys st) w
  end.

Definition parseJSON (json : string) : option V := JSON_parse json.

(** [get]; the two lookups are those of the code for a [plain_key] in a
    [plain_store], where a name that is not an own property finds
    nothing. *)

Definition get (key : CacheKey) (w : World) : result (option (Cached V)) * World :=
  match cache (this w) with
  | None => (Err ConnectionNotStarted, w)
  | Some st =>
      match st !! segment key with
      | None => (Ok None, w)
      | Some seg =>
          match seg !! id key with
          | None => (Ok None, w)
          | Some envelope =>
              let '(now, w) := Date_now w in
              if bool_decide (now > Entry.expireTime envelope) then
                let '(_, w) := drop key w in (Ok None, w)
              else
                match Entry.item envelope with
                | ItemBuffer bytes =>
                    (Ok (Some (mkCached (Buffer bytes)
                                 (Entry.stored envelope) (Entry.ttl envelope))), w)
                | ItemText s =>
                    match parseJSON s with
                    | None => (Err BadValueContent, w)
                    | Some value =>
                        (Ok (Some (mkCached (Plain value)
                                     (Entry.stored envelope) (Entry.ttl envelope))), w)
                    end
                end
          end
      end
  end.

(** [segment[key.id] = envelope], where [segment] is the object that
    [this.cache[key.segment]] refers to: the sweep deletes ids inside that
    object and never replaces it, so the assignment lands in the segment as
    the sweep left it.  For a [plain_key] the assignment creates or
    replaces an own property, which is what the insertion does. *)
Definition insert_entry (key : CacheKey) (envelope : Entry.t)
    (st : gmap string (gmap string Entry.t)) : gmap string (gmap string Entry.t) :=
  <[segment key := <[id key := envelope]> (default ∅ (st !! segment key))]> st.

(** Lines 183 to 189 of [set]: the segment is created when missing, and
    the bytes of an entry already stored under the key are taken off the
    total when the clock reads less than its expiry time.  The clock is
    read only when there is such an entry.  [set] has checked [this.cache]
    before it gets here. *)
Definition displace (key : CacheKey) (w : World) : World :=
  match cache (this w) with
  | None => w
  | Some st =>
      let st :=
        match st !! segment key with
        | Some _ => st
        | None => <[segment key := ∅]> st
        end in
      let w := with_this (set_cache (Some st)) w in
      match lookup_entry key st with
      | Some cachedItem =>
          let '(now, w) := Date_now w in
          if bool_decide (now < Entry.expireTime cachedItem)
          then with_this
                 (fun c => set_byteSize (byteSize c - Entry.byteSize cachedItem) c) w
          else w
      | None => w
      end
  end.

(** Lines 200 and 201 of [set]. *)
Definition store (key : CacheKey) (envelope : Entry.t) (w : World) : World :=
  with_this (fun c =>
    set_byteSize (byteSize c + Entry.byteSize envelope)
      (set_cache (insert_entry key envelope <$> cache c) c)) w.

Definition over_budget (envelope : Entry.t) (w : World) : bool :=
  bool_decide (byteSize (this w) + Entry.byteSize envelope
               > maxByteSize (settings (this w))).

Definition set (key : CacheKey) (value : jsvalue V) (ttl : Z) (w : World)
    : result unit * World :=
  match cache (this w) with
  | None => (Err ConnectionNotStarted, w)
  | Some _ =>
      if bool_decide (ttl > 2147483647) then (Err InvalidTtl, w) else
      match MemoryCacheEntry key value ttl (allowMixedContent (settings (this w))) w with
      | (None, w) => (Err EncodingError, w)
      | (Some envelope, w) =>
          let w := displace key w in
          if bool_decide (maxByteSize (settings (this w)) = 0)
          then (Ok (), store key envelope w)
          else
            let w := if over_budget envelope w then flushExpiredCacheItems w else w in
            if over_budget envelope w
            then (Err CacheSizeLimit, w)
            else (Ok (), store key envelope w)
      end
  end.

(** ** Runs of the public operations *)

Inductive op : Type :=
  | OpStart
  | OpStop
  | OpGet (key : CacheKey)
  | OpSet (key : CacheKey) (value : jsvalue V) (ttl : Z)
  | OpDrop (key : CacheKey).

Definition step (o : op) (w : World) : World :=
  match o with
  | OpStart => (start w).2
  | OpStop => stop w
  | OpGet key => (get key w).2
  | OpSet key value ttl => (set key value ttl w).2
  | OpDrop key => (drop key w).2
  end.

Definition run (ops : list op) (w : World) : World :=
  fold_left (fun w o => step o w) ops w.

End Engine.

(** ** A concrete platform fragment

    The three JSON literals, enough to run the engine on concrete inputs.
    Serializing a buffer is outside this fragment, which is used on
    literals and on buffers stored as mixed content; [sample_JSON] below
    prints and reads buffers. *)
Inductive literal : Type := JNull | JTrue | JFalse.

#[export] Instance literal_JSON : JSON literal := {|
  JSON_stringify v :=
    match v with
    | Plain JNull => Some "null"%string
    | Plain JTrue => Some "true"%string
    | Plain JFalse => Some "false"%string
    | Buffer _ => None
    end;
  JSON_parse s :=
    if String.eqb s "null" then Some JNull
    else if String.eqb s "true" then Some JTrue
    else if String.eqb s "false" then Some JFalse
    else None
|}.

(** A second fragment, with a value that does not serialize.  [SCyclic]
    is an object that refers to itself, on which [JSON.stringify] throws;
    [SBufferObject data] is the plain object [{type: 'Buffer', data}] that
    [JSON.parse] makes of a serialized buffer. *)
Inductive sample : Type :=
  | SLiteral (l : literal)
  | SBufferObject (data : list byte)
  | SCyclic.

(** The text [JSON.stringify] prints for a buffer:
    [{"type":"Buffer","data":[1,255,0]}]. *)
Definition buffer_json (data : list byte) : string :=
  let quote := String (ascii_of_nat 34) EmptyString in
  let decimal (b : byte) := NilZero.string_of_uint (N.to_uint (Byte.to_N b)) in
  ("{" +:+ quote +:+ "type" +:+ quote +:+ ":" +:+ quote +:+ "Buffer" +:+ quote
   +:+ "," +:+ quote +:+ "data" +:+ quote +:+ ":["
   +:+ String.concat "," (decimal <$> data) +:+ "]}")%string.

(** Decimal numbers separated by commas. *)
Fixpoint numbers (s : string) (cur : option N) (acc : list N) : option (list N) :=
  match s with
  | EmptyString =>
      match cur, acc with
      | Some n, _ => Some (rev (n :: acc))
      | None, [] => Some []
      | None, _ => None
      end
  | String a rest =>
      let c := N_of_ascii a in
      if ((48 <=? c) && (c <=? 57))%N
      then numbers rest (Some (default 0 cur * 10 + (c - 48))%N) acc
      else if (c =? 44)%N
           then match cur with
                | Some n => numbers rest None (n :: acc)
                | None => None
                end
           else None
  end.

(** Reads back exactly the texts [buffer_json] prints. *)
Definition parse_buffer_json (s : string) : option (list byte) :=
  let frame := String.length (buffer_json []) in
  let body := substring (frame - 2) (String.length s - frame) s in
  data ← numbers body None [] ≫= mapM Byte.of_N;
  if String.eqb (buffer_json data) s then Some data else None.

Definition sample_JSON : JSON sample := {|
  JSON_stringify v :=
    match v with
    | Buffer data | Plain (SBufferObject data) => Some (buffer_json data)
    | Plain (SLiteral l) => JSON_stringify (Plain l)
    | Plain SCyclic => None
    end;
  JSON_parse s :=
    match JSON_parse s with
    | Some l => Some (SLiteral l)
    | None => SBufferObject <$> parse_buffer_json s
    end
|}.

(** ** Accounted bytes physically present *)

Definition map_sum {A} (f : A -> Z) (m : gmap string A) : Z :=
  map_fold (fun _ x acc => f x + acc) 0 m.

Definition segment_bytes (seg : gmap string Entry.t) : Z :=
  map_sum Entry.byteSize seg.

(** The sum of [byteSize] over every entry present in the cache, expired
    or not. *)
Definition store_bytes (st : gmap string (gmap string Entry.t)) : Z :=
  map_sum segment_bytes st.

Definition entry_bytes (key : CacheKey)
    (st : gmap string (gmap string Entry.t)) : Z :=
  from_option Entry.byteSize 0 (lookup_entry key st).

#[export] Instance CacheKey_eq_dec : EqDecision CacheKey.
Proof. solve_decision. Defined.

(** ** Invariants and relations used in the statements *)

(** What holds of every state the operations can produce: the budget is
    not negative (the constructor asserts it) and every stored entry
    carries at least the fixed overhead. *)
Definition valid (c : Connection) : Prop :=
  0 <= maxByteSize (settings c) /\
  forall st key e,
    cache c = Some st -> lookup_entry key st = Some e -> 144 <= Entry.byteSize e.

(** [shrinks c c']: [c'] is [c] with some entries removed and their bytes
    taken off the total. *)
Definition shrinks (c c' : Connection) : Prop :=
  settings c' = settings c /\
  match cache c, cache c' with
  | Some st, Some st' =>
      (forall key e, lookup_entry key st' = Some e -> lookup_entry key st = Some e) /\
      (forall s, is_Some (st !! s) -> is_Some (st' !! s)) /\
      byteSize c' - store_bytes st' = byteSize c - store_bytes st /\
      ((forall key e, lookup_entry key st = Some e -> 0 <= Entry.byteSize e) ->
       byteSize c' <= byteSize c)
  | None, None => byteSize c' = byteSize c
  | _, _ => False
  end.

(** The entry the sweep leaves under [key] when every clock reading is
    [now]. *)
Definition swept (now : Z) (st : gmap string (gmap string Entry.t))
    (key : CacheKey) : option Entry.t :=
  match lookup_entry key st with
  | Some e => if bool_decide (now > Entry.expireTime e) then None else Some e
  | None => None
  end.

(** ** Concrete engines, clocks and inputs *)

(** [new MemoryCache()] and two engines with options, each at a process
    that has not read the clock yet. *)
Definition new_world (c : Connection) : World := {| this := c; clock := 0 |}.

Definition default_connection : Connection :=
  {| settings := defaults; cache := None; byteSize := 0 |}.

Definition tight_options : Options :=
  {| opt_maxByteSize := Some 150; opt_allowMixedContent := None |}.

Definition tight_connection : Connection :=
  {| settings := {| maxByteSize := 150; allowMixedContent := false |};
     cache := None; byteSize := 0 |}.

Definition mixed_options : Options :=
  {| opt_maxByteSize := None; opt_allowMixedContent := Some (JsBoolean true) |}.

Definition mixed_connection : Connection :=
  {| settings := {| maxByteSize := 100 * 1024 * 1024; allowMixedContent := true |};
     cache := None; byteSize := 0 |}.

(** A clock that reads [t] at every call, and one that reads [20 * n] at
    call [n]. *)
Definition frozen (t : Z) : nat -> Z := fun _ => t.
Definition ticking : nat -> Z := fun n => 20 * Z.of_nat n.
(** A clock that reads [t0] at the first call and [t1] from then on. *)
Definition jumping (t0 t1 : Z) : nat -> Z :=
  fun n => match n with O => t0 | S _ => t1 end.

Definition key_a : CacheKey := {| segment := "s"; id := "a" |}.

(** The entries [set] builds for [true] and [false] under [key_a]. *)
Definition entry_true (stored ttl : Z) : Entry.t :=
  {| Entry.item := ItemText "true"; Entry.stored := stored; Entry.ttl := ttl;
     Entry.expireTime := stored + ttl; Entry.byteSize := 150 |}.

Definition entry_false (stored ttl : Z) : Entry.t :=
  {| Entry.item := ItemText "false"; Entry.stored := stored; Entry.ttl := ttl;
     Entry.expireTime := stored + ttl; Entry.byteSize := 151 |}.

(** States reached on those engines. *)
Definition started_world : World :=
  run (frozen 0) (V := literal) [OpStart] (new_world default_connection).


(** [started_world] after [set(key_a, true, 1000)]. *)
Definition filled_world : World :=
  run (frozen 0) [OpStart; OpSet key_a (Plain JTrue) 1000]
    (new_world default_connection).

Definition entry_buffer : Entry.t :=
  {| Entry.item := ItemBuffer [x01; x02]%byte; Entry.stored := 0; Entry.ttl := 1000;
     Entry.expireTime := 1000; Entry.byteSize := 148 |}.

Definition buffer_world : World :=
  run (frozen 0) [OpStart; OpSet key_a (@Buffer literal [x01; x02]%byte) 1000]
    (new_world mixed_connection).

(** One entry, stored at time 0 with a ttl of 0, on a clock that has moved
    on to 5. *)
Definition stale_world : World :=
  run (jumping 0 5) [OpStart; OpSet key_a (Plain JTrue) 0]
    (new_world default_connection).

Definition single (e : Entry.t) : gmap string (gmap string Entry.t) :=
  {[ "s"%string := {[ "a"%string := e ]} ]}.

(** ** Segment names *)

(** [name.indexOf(c)] for a single character: the position of its first
    occurrence, or -1.  Only the comparison with -1 is used, so counting
    bytes rather than UTF-16 units makes no difference; the character
    U+0000 is the zero byte and occurs in the encoding of no other. *)
Fixpoint indexOf (c : ascii) (name : string) : Z :=
  match name with
  | EmptyString => -1
  | String a rest =>
      if Ascii.eqb a c then 0
      else let i := indexOf c rest in
           if bool_decide (i = -1) then -1 else i + 1
  end.

Inductive SegmentNameError : Type :=
  | EmptyStringError          (* 'Empty string' *)
  | IncludesNullCharacter.    (* 'Includes null character' *)

(** [validateSegmentName(name)]: [None] is the [null] returned for a good
    name.  [!name] holds of the empty string only. *)
Definition validateSegmentName (name : string) : option SegmentNameError :=
  match name with
  | EmptyString => Some EmptyStringError
  | _ =>
      if bool_decide (indexOf "000"%char name ≠ -1)
      then Some IncludesNullCharacter
      else None
  end.

(** ** Further invariants *)

(** An engine that is stopped, or whose cache is a [plain_store]; and an
    operation whose key, if it has one, is a [plain_key]. *)
Definition plain_connection (c : Connection) : Prop :=
  forall st, cache c = Some st -> plain_store st.

Definition plain_op {V : Type} (o : op (V := V)) : Prop :=
  match o with
  | OpGet key | OpSet key _ _ | OpDrop key => plain_key key
  | OpStart | OpStop => True
  end.

Definition snapshot_bytes (it : snapshot) : Z :=
  match it with
  | ItemBuffer bytes => Z.of_nat (length bytes)
  | ItemText s => Buffer_byteLength s
  end.

(** What the constructor of entries establishes, for the key the entry is
    stored under and the engine's mixed-content setting. *)
Definition entry_consistent (mixed : bool) (key : CacheKey) (e : Entry.t) : Prop :=
  Entry.expireTime e = Entry.stored e + Entry.ttl e /\
  Entry.ttl e <= 2147483647 /\
  Entry.byteSize e
  = 144 + snapshot_bytes (Entry.item e)
    + Buffer_byteLength (segment key) + Buffer_byteLength (id key) /\
  (forall bytes, Entry.item e = ItemBuffer bytes -> mixed = true).

Definition consistent (c : Connection) : Prop :=
  forall st key e,
    cache c = Some st -> lookup_entry key st = Some e ->
    entry_consistent (allowMixedContent (settings c)) key e.

(** The recorded total is within the budget, when there is one. *)
Definition within_budget (c : Connection) : Prop :=
  maxByteSize (settings c) ≠ 0 -> byteSize c <= maxByteSize (settings c).

(** [loses c c']: both started, same settings, and [c'] holds no entry
    and no segment that [c] does not, with a total that is no larger when
    no entry of [c] has a negative size. *)
Definition loses (c c' : Connection) : Prop :=
  settings c' = settings c /\
  exists st st',
    cache c = Some st /\ cache c' = Some st' /\
    (forall key e, lookup_entry key st' = Some e -> lookup_entry key st = Some e) /\
    (forall s, is_Some (st !! s) -> is_Some (st' !! s)) /\
    ((forall key e, lookup_entry key st = Some e -> 0 <= Entry.byteSize e) ->
     byteSize c' <= byteSize c).

(** ** Lemmas on sums over dictionaries *)

Lemma map_sum_empty {A} (f : A -> Z) : map_sum f ∅ = 0.
Proof. unfold map_sum. apply map_fold_empty. Qed.

Lemma map_sum_insert_fresh {A} (f : A -> Z) (m : gmap string A) i x :
  m !! i = None -> map_sum f (<[i:=x]> m) = f x + map_sum f m.
Proof.
  intros Hi. unfold map_sum.
  rewrite map_fold_insert_L; [done | intros; lia | done].
Qed.

Lemma map_sum_delete {A} (f : A -> Z) (m : gmap string A) i :
  map_sum f (delete i m) = map_sum f m - from_option f 0 (m !! i).
Proof.
  destruct (m !! i) as [x|] eqn:Hi; simpl.
  - unfold map_sum.
    rewrite (map_fold_delete_L _ _ i x m); [lia | intros; lia | done].
  - rewrite delete_id by done. lia.
Qed.

Lemma map_sum_insert {A} (f : A -> Z) (m : gmap string A) i x :
  map_sum f (<[i:=x]> m) = map_sum f m - from_option f 0 (m !! i) + f x.
Proof.
  rewrite <- insert_delete_eq.
  rewrite map_sum_insert_fresh by apply lookup_delete_eq.
  rewrite map_sum_delete. lia.
Qed.

(** ** Lookups after the three kinds of update *)

Lemma lookup_entry_insert_entry key key' e st :
  lookup_entry key' (insert_entry key e st)
  = if decide (key' = key) then Some e else lookup_entry key' st.
Proof.
  unfold lookup_entry, insert_entry. destruct key as [s i], key' as [s' i']; simpl.
  destruct (decide (s = s')) as [->|Hs].
  - rewrite lookup_insert_eq. destruct (decide (i = i')) as [->|Hi].
    + rewrite lookup_insert_eq. by rewrite decide_True.
    + rewrite lookup_insert_ne by done. rewrite decide_False by congruence.
      destruct (st !! s'); simpl; [done | apply lookup_empty].
  - rewrite lookup_insert_ne by done. by rewrite decide_False by congruence.
Qed.

Lemma lookup_entry_delete key key' seg st :
  st !! segment key = Some seg ->
  lookup_entry key' (<[segment key := delete (id key) seg]> st)
  = if decide (key' = key) then None else lookup_entry key' st.
Proof.
  intros Hseg. unfold lookup_entry. destruct key as [s i], key' as [s' i']; simpl in *.
  destruct (decide (s = s')) as [->|Hs].
  - rewrite lookup_insert_eq, Hseg. destruct (decide (i = i')) as [->|Hi].
    + rewrite lookup_delete_eq. by rewrite decide_True.
    + rewrite lookup_delete_ne by done. by rewrite decide_False by congruence.
  - rewrite lookup_insert_ne by done. by rewrite decide_False by congruence.
Qed.

Lemma lookup_entry_new_segment key s st :
  st !! s = None -> lookup_entry key (<[s := ∅]> st) = lookup_entry key st.
Proof.
  intros Hs. unfold lookup_entry. destruct (decide (s = segment key)) as [<-|Hne].
  - rewrite lookup_insert_eq, Hs. apply lookup_empty.
  - by rewrite lookup_insert_ne.
Qed.

Lemma store_bytes_delete key seg st :
  st !! segment key = Some seg ->
  store_bytes (<[segment key := delete (id key) seg]> st)
  = store_bytes st - entry_bytes key st.
Proof.
  intros Hseg. unfold store_bytes, entry_bytes, lookup_entry.
  rewrite map_sum_insert, Hseg. simpl. unfold segment_bytes.
  rewrite map_sum_delete. lia.
Qed.

Lemma store_bytes_new_segment s st :
  st !! s = None -> store_bytes (<[s := ∅]> st) = store_bytes st.
Proof.
  intros Hs. unfold store_bytes. rewrite map_sum_insert, Hs. simpl.
  unfold segment_bytes. rewrite map_sum_empty. lia.
Qed.

Lemma store_bytes_insert_entry key e st :
  store_bytes (insert_entry key e st)
  = store_bytes st - entry_bytes key st + Entry.byteSize e.
Proof.
  unfold store_bytes, entry_bytes, lookup_entry, insert_entry.
  rewrite map_sum_insert. unfold segment_bytes. rewrite map_sum_insert.
  destruct (st !! segment key) as [seg|]; simpl.
  - lia.
  - rewrite map_sum_empty, lookup_empty. simpl. lia.
Qed.

(** ** Removing entries *)

Lemma shrinks_refl c : shrinks c c.
Proof.
  split; [done|]. destruct (cache c); [|done]. repeat split; auto; lia.
Qed.

Lemma shrinks_trans c1 c2 c3 : shrinks c1 c2 -> shrinks c2 c3 -> shrinks c1 c3.
Proof.
  intros [Hs12 H12] [Hs23 H23]. split; [congruence|].
  destruct (cache c1) as [st1|], (cache c2) as [st2|], (cache c3) as [st3|];
    try done; [|lia].
  destruct H12 as (Hsub12 & Hseg12 & Hd12 & Hle12).
  destruct H23 as (Hsub23 & Hseg23 & Hd23 & Hle23).
  repeat split; [auto | auto | lia |].
  intros Hpos. specialize (Hle12 Hpos).
  assert (byteSize c3 <= byteSize c2); [|lia].
  apply Hle23. intros key e He. eapply Hpos, Hsub12, He.
Qed.

Lemma dropKey_lookup key c st :
  cache c = Some st ->
  exists st',
    cache (dropKey key c) = Some st' /\
    settings (dropKey key c) = settings c /\
    (forall key', lookup_entry key' st'
                  = if decide (key' = key) then None else lookup_entry key' st) /\
    byteSize (dropKey key c) = byteSize c - entry_bytes key st /\
    store_bytes st' = store_bytes st - entry_bytes key st /\
    (forall s, is_Some (st !! s) -> is_Some (st' !! s)).
Proof.
  intros Hc. unfold dropKey. rewrite Hc.
  destruct (st !! segment key) as [seg|] eqn:Hseg.
  - eexists. split; [reflexivity|]. split; [by destruct (seg !! id key)|].
    split; [intros; by apply lookup_entry_delete|].
    split.
    + unfold entry_bytes, lookup_entry. rewrite Hseg.
      destruct (seg !! id key); simpl; lia.
    + split; [by apply store_bytes_delete|].
      intros s Hs. destruct (decide (segment key = s)) as [<-|Hne].
      * rewrite lookup_insert_eq. eauto.
      * by rewrite lookup_insert_ne.
  - exists st. unfold entry_bytes, lookup_entry. rewrite Hseg. simpl.
    repeat split; auto; try lia.
    intros key'. destruct (decide (key' = key)) as [->|]; [by rewrite Hseg | done].
Qed.

Lemma dropKey_shrinks key c : shrinks c (dropKey key c).
Proof.
  destruct (cache c) as [st|] eqn:Hc.
  - destruct (dropKey_lookup key c st Hc) as (st' & Hc' & Hset & Hlk & Hb & Hsum & Hseg).
    split; [done|]. rewrite Hc, Hc'. repeat split; [| done | lia |].
    + intros key' e. rewrite Hlk. by destruct (decide (key' = key)).
    + intros Hpos. rewrite Hb. unfold entry_bytes.
      destruct (lookup_entry key st) as [e|] eqn:He; simpl; [|lia].
      specialize (Hpos key e He). lia.
  - unfold dropKey. rewrite Hc. apply shrinks_refl.
Qed.

Section Sweep.

Variable Date : nat -> Z.

Lemma flushSegment_shrinks seg keys w :
  shrinks (this w) (this (flushSegment Date seg keys w)) /\
  clock (flushSegment Date seg keys w) = (clock w + length keys)%nat.
Proof.
  revert w. induction keys as [|key keys IH]; intros w; simpl.
  - split; [apply shrinks_refl | lia].
  - match goal with |- context [flushSegment Date seg keys ?w1] =>
      destruct (IH w1) as [IHs IHc]; split;
      [eapply shrinks_trans; [|exact IHs] | rewrite IHc]
    end.
    + destruct (cache (this w) ≫= _); simpl; [|apply shrinks_refl].
      case_bool_decide; simpl; [apply dropKey_shrinks | apply shrinks_refl].
    + destruct (cache (this w) ≫= _); simpl; [|lia]. case_bool_decide; simpl; lia.
Qed.

Lemma flushSegments_shrinks segments w :
  shrinks (this w) (this (flushSegments Date segments w)) /\
  (clock w <= clock (flushSegments Date segments w))%nat.
Proof.
  revert w. induction segments as [|seg segments IH]; intros w; simpl.
  - split; [apply shrinks_refl | lia].
  - match goal with |- context [flushSegment Date seg ?ks w] =>
      destruct (flushSegment_shrinks seg ks w) as [Hs Hc];
      destruct (IH (flushSegment Date seg ks w)) as [IHs IHc]
    end.
    split; [eapply shrinks_trans; eassumption | lia].
Qed.

Lemma flushExpiredCacheItems_shrinks w :
  shrinks (this w) (this (flushExpiredCacheItems Date w)) /\
  (clock w <= clock (flushExpiredCacheItems Date w))%nat.
Proof.
  unfold flushExpiredCacheItems. destruct (cache (this w)) eqn:Hc.
  - apply flushSegments_shrinks.
  - split; [apply shrinks_refl | lia].
Qed.

(** *** The sweep when the clock stands still *)

Variable now : Z.

Lemma swept_idemp st st' key :
  lookup_entry key st' = swept now st key -> swept now st' key = swept now st key.
Proof.
  intros Heq. unfold swept in *. rewrite Heq.
  destruct (lookup_entry key st) as [e|]; [|done].
  case_bool_decide as Hexp; [done|]. by rewrite bool_decide_false.
Qed.

Lemma swept_same st st' key :
  lookup_entry key st' = lookup_entry key st -> swept now st' key = swept now st key.
Proof. unfold swept. by intros ->. Qed.

Lemma flushSegment_swept seg keys w st :
  cache (this w) = Some st ->
  (forall n, (clock w <= n)%nat -> Date n = now) ->
  exists st',
    cache (this (flushSegment Date seg keys w)) = Some st' /\
    forall key,
      lookup_entry key st'
      = if decide (segment key = seg /\ id key ∈ keys)
        then swept now st key else lookup_entry key st.
Proof.
  revert w st. induction keys as [|i keys IH]; intros w st Hc Hnow; simpl.
  - exists st. split; [done|]. intros key.
    rewrite decide_False; [done|]. intros [_ Hin]. by apply not_elem_of_nil in Hin.
  - rewrite Hc. simpl. rewrite (Hnow (clock w)) by lia.
    set (k := {| segment := seg; id := i |}).
    set (w1 := match lookup_entry k st with
               | Some e => if bool_decide (now > Entry.expireTime e) then _ else _
               | None => _
               end).
    assert (exists st1, cache (this w1) = Some st1 /\ clock w1 = S (clock w) /\
              forall key, lookup_entry key st1
                          = if decide (key = k) then swept now st key
                            else lookup_entry key st) as (st1 & Hc1 & Hclk & Hst1).
    { subst w1. destruct (lookup_entry k st) as [e|] eqn:He.
      - case_bool_decide as Hexp.
        + destruct (dropKey_lookup k _ st Hc) as (st1 & Hc1 & _ & Hlk & _).
          exists st1. split; [exact Hc1|]. split; [done|]. intros key. rewrite Hlk.
          destruct (decide (key = k)) as [->|]; [|done].
          unfold swept. rewrite He. by rewrite bool_decide_true.
        + exists st. split; [done|]. split; [done|]. intros key.
          destruct (decide (key = k)) as [->|]; [|done].
          unfold swept. rewrite He. by rewrite bool_decide_false.
      - exists st. split; [done|]. split; [done|]. intros key.
        destruct (decide (key = k)) as [->|]; [|done].
        unfold swept. by rewrite He. }
    destruct (IH w1 st1 Hc1) as (st' & Hc' & Hst').
    { intros n Hn. apply Hnow. lia. }
    exists st'. split; [exact Hc'|]. intros key. rewrite Hst'.
    destruct (decide (key = k)) as [->|Hne].
    + assert (lookup_entry k st1 = swept now st k) as Hk
        by (rewrite Hst1; by rewrite decide_True).
      rewrite (swept_idemp st st1 k Hk), Hk.
      rewrite (decide_True (P := segment k = seg /\ id k ∈ i :: keys))
        by (split; [done | left]).
      by destruct (decide _).
    + assert (lookup_entry key st1 = lookup_entry key st) as Hk
        by (rewrite Hst1; by rewrite decide_False).
      rewrite (swept_same st st1 key Hk), Hk.
      destruct (decide (segment key = seg /\ id key ∈ keys)) as [[Hs Hin]|Hn].
      * rewrite decide_True; [done|]. split; [done | by right].
      * rewrite decide_False; [done|]. intros [Hs Hin]. apply Hn. split; [done|].
        apply elem_of_cons in Hin as [Hi|]; [|done].
        exfalso. apply Hne. subst k. destruct key; simpl in *; congruence.
Qed.

Lemma elem_of_Object_keys {A} (o : gmap string A) (i : string) :
  i ∈ Object_keys o <-> is_Some (o !! i).
Proof.
  unfold Object_keys. rewrite list_elem_of_fmap. split.
  - intros ([i' x] & -> & Hin). apply elem_of_map_to_list in Hin. eauto.
  - intros [x Hx]. exists (i, x). split; [done|]. by apply elem_of_map_to_list.
Qed.

Lemma flushSegments_swept segments w st :
  cache (this w) = Some st ->
  (forall n, (clock w <= n)%nat -> Date n = now) ->
  exists st',
    cache (this (flushSegments Date segments w)) = Some st' /\
    forall key,
      lookup_entry key st'
      = if decide (segment key ∈ segments)
        then swept now st key else lookup_entry key st.
Proof.
  revert w st. induction segments as [|seg segments IH]; intros w st Hc Hnow;
    cbn [flushSegments].
  - exists st. split; [done|]. intros key.
    rewrite decide_False; [done|]. apply not_elem_of_nil.
  - rewrite Hc. cbn [mbind option_bind].
    set (keys := match st !! seg with Some o => Object_keys o | None => [] end).
    destruct (flushSegment_swept seg keys w st Hc Hnow) as (st1 & Hc1 & Hst1).
    destruct (flushSegment_shrinks seg keys w) as [_ Hclk].
    assert (forall key, lookup_entry key st1
                        = if decide (segment key = seg) then swept now st key
                          else lookup_entry key st) as Hst1'.
    { intros key. rewrite Hst1.
      destruct (decide (segment key = seg)) as [Hs|Hs].
      - destruct (decide (segment key = seg /\ id key ∈ keys)) as [|Hn]; [done|].
        unfold swept. destruct (lookup_entry key st) as [e|] eqn:He; [|done].
        exfalso. apply Hn. split; [done|]. subst keys.
        unfold lookup_entry in He. rewrite Hs in He.
        destruct (st !! seg) as [o|]; [|done]. apply elem_of_Object_keys. eauto.
      - rewrite decide_False; [done|]. by intros [? _]. }
    destruct (IH _ st1 Hc1) as (st' & Hc' & Hst').
    { intros n Hn. apply Hnow. lia. }
    exists st'. split; [exact Hc'|]. intros key. rewrite Hst'.
    destruct (decide (segment key = seg)) as [Hs|Hs].
    + assert (lookup_entry key st1 = swept now st key) as Hk
        by (rewrite Hst1'; by rewrite decide_True).
      rewrite (swept_idemp st st1 key Hk), Hk.
      rewrite (decide_True (P := segment key ∈ seg :: segments))
        by (rewrite Hs; left).
      by destruct (decide _).
    + assert (lookup_entry key st1 = lookup_entry key st) as Hk
        by (rewrite Hst1'; by rewrite decide_False).
      rewrite (swept_same st st1 key Hk), Hk.
      destruct (decide (segment key ∈ segments)) as [Hin|Hn].
      * rewrite decide_True; [done | by right].
      * rewrite decide_False; [done|]. intros Hin.
        apply elem_of_cons in Hin as [?|?]; done.
Qed.

Lemma flushExpiredCacheItems_swept w st :
  cache (this w) = Some st ->
  (forall n, (clock w <= n)%nat -> Date n = now) ->
  exists st',
    cache (this (flushExpiredCacheItems Date w)) = Some st' /\
    forall key, lookup_entry key st' = swept now st key.
Proof.
  intros Hc Hnow. unfold flushExpiredCacheItems. rewrite Hc.
  destruct (flushSegments_swept (Object_keys st) w st Hc Hnow) as (st' & Hc' & Hst').
  exists st'. split; [exact Hc'|]. intros key. rewrite Hst'.
  destruct (decide (segment key ∈ Object_keys st)) as [|Hn]; [done|].
  unfold swept, lookup_entry. destruct (st !! segment key) as [o|] eqn:Ho; [|done].
  exfalso. apply Hn, elem_of_Object_keys. eauto.
Qed.

End Sweep.

(** ** The operations, seen through [lookup_entry] *)

Section Operations.

Context {V : Type} `{JSON V}.
Variable Date : nat -> Z.

Lemma get_lookup_entry key w st :
  cache (this w) = Some st ->
  get Date key w
  = match lookup_entry key st with
    | None => (Ok None, w)
    | Some envelope =>
        if bool_decide (Date (clock w) > Entry.expireTime envelope)
        then (Ok None, with_this (dropKey key) (Date_now Date w).2)
        else
          match Entry.item envelope with
          | ItemBuffer bytes =>
              (Ok (Some (mkCached (Buffer bytes)
                           (Entry.stored envelope) (Entry.ttl envelope))),
               (Date_now Date w).2)
          | ItemText s =>
              match JSON_parse s with
              | None => (Err BadValueContent, (Date_now Date w).2)
              | Some value =>
                  (Ok (Some (mkCached (Plain value)
                               (Entry.stored envelope) (Entry.ttl envelope))),
                   (Date_now Date w).2)
              end
          end
    end.
Proof.
  intros Hc. unfold get, lookup_entry. rewrite Hc.
  destruct (st !! segment key) as [seg|]; [|done].
  destruct (seg !! id key) as [envelope|]; [|done].
  simpl. case_bool_decide; [|done].
  unfold drop. simpl. by rewrite Hc.
Qed.

Lemma MemoryCacheEntry_inv key value ttl allowMixed w envelope w0 :
  MemoryCacheEntry Date key value ttl allowMixed w = (Some envelope, w0) ->
  w0 = (Date_now Date w).2 /\
  Entry.stored envelope = Date (clock w) /\
  Entry.ttl envelope = ttl /\
  Entry.expireTime envelope = Date (clock w) + ttl /\
  144 <= Entry.byteSize envelope /\
  match allowMixed, value with
  | true, Buffer bytes => Entry.item envelope = ItemBuffer bytes
  | _, _ => exists s, JSON_stringify value = Some s /\ Entry.item envelope = ItemText s
  end.
Proof.
  unfold MemoryCacheEntry, Buffer_byteLength. intros Hm.
  destruct allowMixed, value as [bytes|v];
    try (destruct (JSON_stringify _) as [s|]; [|done]);
    simpl in Hm; injection Hm as <- <-; simpl;
    repeat split; eauto; lia.
Qed.

Lemma displace_spec key w st :
  cache (this w) = Some st ->
  exists st1,
    cache (this (displace Date key w)) = Some st1 /\
    settings (this (displace Date key w)) = settings (this w) /\
    (forall key', lookup_entry key' st1 = lookup_entry key' st) /\
    store_bytes st1 = store_bytes st /\
    is_Some (st1 !! segment key) /\
    (clock w <= clock (displace Date key w))%nat /\
    byteSize (this (displace Date key w))
    = match lookup_entry key st with
      | Some cachedItem =>
          if bool_decide (Date (clock w) < Entry.expireTime cachedItem)
          then byteSize (this w) - Entry.byteSize cachedItem
          else byteSize (this w)
      | None => byteSize (this w)
      end.
Proof.
  intros Hc. unfold displace. rewrite Hc.
  set (st1 := match st !! segment key with Some _ => st | None => _ end).
  assert ((forall key', lookup_entry key' st1 = lookup_entry key' st) /\
          store_bytes st1 = store_bytes st /\ is_Some (st1 !! segment key))
    as (Hlk & Hsum & Hseg).
  { subst st1. destruct (st !! segment key) as [seg|] eqn:Hs.
    - rewrite Hs. eauto.
    - split; [intros; by apply lookup_entry_new_segment|].
      split; [by apply store_bytes_new_segment|].
      rewrite lookup_insert_eq. eauto. }
  exists st1. rewrite (Hlk key).
  destruct (lookup_entry key st) as [cachedItem|]; simpl.
  - case_bool_decide; simpl; repeat split; auto; lia.
  - repeat split; auto; lia.
Qed.

Lemma store_spec key envelope w st :
  cache (this w) = Some st ->
  cache (this (store key envelope w)) = Some (insert_entry key envelope st) /\
  settings (this (store key envelope w)) = settings (this w) /\
  byteSize (this (store key envelope w)) = byteSize (this w) + Entry.byteSize envelope /\
  clock (store key envelope w) = clock w.
Proof. intros Hc. unfold store. simpl. by rewrite Hc. Qed.

End Operations.

(** ** Lifecycle and guards *)

Section Guards.

Context {V : Type} `{JSON V}.
Variable Date : nat -> Z.

(** C8. [start] always reports success.  On a started engine it changes
    nothing, so the cache and the byte total are kept; on a stopped engine
    it leaves an empty cache and a total of zero.  Starting twice is the
    same as starting once. *)
Theorem start_succeeds_and_is_idempotent (w : World) :
  (start w).1 = Ok () /\
  (start w).2
  = match cache (this w) with
    | Some _ => w
    | None => {| this := {| settings := settings (this w);
                            cache := Some ∅;
                            byteSize := 0 |};
                 clock := clock w |}
    end /\
  start (start w).2 = (Ok (), (start w).2).
Proof.
  unfold start. destruct (cache (this w)) eqn:Hc; simpl.
  - by rewrite Hc.
  - done.
Qed.

(** C9. On an engine that is not started, [get], [set] and [drop] each
    fail with the not-started error and leave the whole state, the clock
    reading count included, as it was. *)
Theorem data_operations_require_started
    (key : CacheKey) (value : jsvalue V) (ttl : Z) (w : World) :
  cache (this w) = None ->
  get Date key w = (Err ConnectionNotStarted, w) /\
  set Date key value ttl w = (Err ConnectionNotStarted, w) /\
  drop key w = (Err ConnectionNotStarted, w).
Proof. intros Hc. unfold get, set, drop. by rewrite Hc. Qed.

(** C7. On a started engine, [set] fails with the invalid-TTL error
    exactly when [ttl > 2^31 - 1], and then nothing is changed; a smaller
    ttl, negative ones included, is never rejected by the guard. *)
Theorem ttl_guard (key : CacheKey) (value : jsvalue V) (ttl : Z) (w : World)
    (st : gmap string (gmap string Entry.t)) :
  cache (this w) = Some st ->
  ((set Date key value ttl w).1 = Err InvalidTtl <-> ttl > 2147483647) /\
  (ttl > 2147483647 -> set Date key value ttl w = (Err InvalidTtl, w)).
Proof.
  intros Hc. unfold set. rewrite Hc.
  case_bool_decide as Httl; [done|].
  split; [|done]. split; [|done]. intros Hset. exfalso.
  destruct (MemoryCacheEntry _ _ _ _ _ _) as [[envelope|] w0]; [|done].
  repeat case_bool_decide || case_match; simplify_eq/=.
Qed.

(** C10. An entry whose snapshot is a buffer is never reported as bad
    value content: [get] answers absent when the clock has passed its
    expiry time and otherwise hands the buffer back as it is, with the
    stored timestamp and ttl, without calling the decoder. *)
Theorem buffer_snapshot_is_not_decoded (key : CacheKey) (w : World)
    (st : gmap string (gmap string Entry.t)) (e : Entry.t) (bytes : list byte) :
  cache (this w) = Some st ->
  lookup_entry key st = Some e ->
  Entry.item e = ItemBuffer bytes ->
  (get Date key w).1 ≠ Err BadValueContent /\
  (get Date key w).1
  = if bool_decide (Date (clock w) > Entry.expireTime e)
    then Ok None
    else Ok (Some (mkCached (Buffer bytes) (Entry.stored e) (Entry.ttl e))).
Proof.
  intros Hc He Hitem. rewrite (get_lookup_entry Date key w st Hc), He, Hitem.
  by case_bool_decide.
Qed.

End Guards.

(** ** Writing and reading back *)

Section RoundTrip.

Context {V : Type} `{JSON V}.
Variable Date : nat -> Z.

Lemma flush_started w st :
  cache (this w) = Some st ->
  is_Some (cache (this (flushExpiredCacheItems Date w))).
Proof.
  intros Hc. destruct (flushExpiredCacheItems_shrinks Date w) as [[_ Hs] _].
  rewrite Hc in Hs. destruct (cache (this (flushExpiredCacheItems Date w))); [eauto|done].
Qed.

Lemma set_ok_inv key value ttl w w1 :
  set Date key value ttl w = (Ok (), w1) ->
  exists envelope w',
    MemoryCacheEntry Date key value ttl (allowMixedContent (settings (this w))) w
    = (Some envelope, (Date_now Date w).2) /\
    is_Some (cache (this w')) /\
    w1 = store key envelope w'.
Proof.
  unfold set. destruct (cache (this w)) as [st|] eqn:Hc; [|done].
  case_bool_decide; [done|].
  destruct (MemoryCacheEntry _ _ _ _ _ _) as [[envelope|] w0] eqn:Hm; [|done].
  destruct (MemoryCacheEntry_inv Date _ _ _ _ _ _ _ Hm) as (-> & _).
  destruct (displace_spec Date key (Date_now Date w).2 st Hc) as (st1 & Hc1 & _).
  intros Hset. exists envelope.
  set (w1' := displace Date key (Date_now Date w).2) in *.
  case_bool_decide.
  - injection Hset as <-. exists w1'. by rewrite Hc1.
  - destruct (over_budget envelope w1').
    + destruct (over_budget envelope (flushExpiredCacheItems Date w1')); [done|].
      injection Hset as <-. exists (flushExpiredCacheItems Date w1').
      split; [done|]. split; [|done]. by apply (flush_started _ st1).
    + destruct (over_budget envelope w1'); [done|].
      injection Hset as <-. exists w1'. by rewrite Hc1.
Qed.

(** C6. When [set] succeeds and the next clock reading, the one [get]
    makes, is not past the new entry's expiry time (as when [get] follows
    at once and the ttl is not negative), [get] on the same key returns a
    value together with the timestamp read by [set] and the ttl given to
    it: the very bytes for a buffer stored with mixed content enabled, and
    otherwise what [JSON.parse] makes of the text [JSON.stringify] produced
    for the value.  The platform is assumed to parse what it printed. *)
Theorem set_then_get_round_trip
    (key : CacheKey) (value : jsvalue V) (ttl : Z) (w w1 : World) :
  (forall v s, JSON_stringify v = Some s -> is_Some (JSON_parse s)) ->
  set Date key value ttl w = (Ok (), w1) ->
  Date (clock w1) <= Date (clock w) + ttl ->
  exists item,
    (get Date key w1).1 = Ok (Some (mkCached item (Date (clock w)) ttl)) /\
    match allowMixedContent (settings (this w)), value with
    | true, Buffer bytes => item = Buffer bytes
    | _, _ =>
        exists s v',
          JSON_stringify value = Some s /\ JSON_parse s = Some v' /\ item = Plain v'
    end.
Proof.
  intros Hplatform Hset Hsoon.
  destruct (set_ok_inv _ _ _ _ _ Hset) as (envelope & w' & Hm & [st' Hc'] & ->).
  destruct (MemoryCacheEntry_inv Date _ _ _ _ _ _ _ Hm)
    as (_ & Hstored & Httl & Hexp & _ & Hitem).
  destruct (store_spec key envelope w' st' Hc') as (Hc1 & _ & _ & Hclk).
  rewrite (get_lookup_entry Date key _ _ Hc1).
  rewrite lookup_entry_insert_entry, decide_True by done.
  rewrite bool_decide_false by lia.
  rewrite Hstored, Httl.
  destruct (allowMixedContent (settings (this w))), value as [bytes|v];
    try (rewrite Hitem; by eexists);
    destruct Hitem as (s & Hs & ->);
    destruct (Hplatform _ _ Hs) as [v' Hv']; rewrite Hv';
    eexists; (split; [done|]); eauto.
Qed.

End RoundTrip.

(** ** Expiry and the byte budget *)

Section Expiry.

Context {V : Type} `{JSON V}.
Variable Date : nat -> Z.

(** C4, amended to the comparisons the code makes.  Take a started
    engine whose cache holds plain names only, and let the clock read
    [now] throughout the call.

    - For an entry with [expireTime < now], [get] answers absent, deletes
      that entry and only that one, and takes its [byteSize] off the
      total.
    - For an entry with [now <= expireTime], so also at [expireTime = now],
      [get] leaves the connection as it is and hands back the decoded
      snapshot with the stored timestamp and ttl (or the bad-value
      error when the text does not parse).
    - The sweep deletes exactly the entries with [expireTime < now], keeps
      every entry with [now <= expireTime], and lowers the total by the
      bytes of what it deleted.
    - The third reader, the replacement test of [set] on line 187, draws
      the line elsewhere: it takes the bytes of the entry under the key off
      the total only when [now < expireTime], so at [expireTime = now] it
      treats as expired an entry that [get] still serves. *)
Theorem expired_entries_are_dropped (w : World)
    (st : gmap string (gmap string Entry.t)) (now : Z) :
  cache (this w) = Some st ->
  plain_store st ->
  (forall n, (clock w <= n)%nat -> Date n = now) ->
  (forall key e,
     lookup_entry key st = Some e ->
     Entry.expireTime e < now ->
     exists w' st',
       get Date key w = (Ok None, w') /\
       cache (this w') = Some st' /\
       (forall key', lookup_entry key' st'
                     = if decide (key' = key) then None else lookup_entry key' st) /\
       byteSize (this w') = byteSize (this w) - Entry.byteSize e) /\
  (forall key e,
     lookup_entry key st = Some e ->
     now <= Entry.expireTime e ->
     this (get Date key w).2 = this w /\
     (get Date key w).1
     = match Entry.item e with
       | ItemBuffer bytes =>
           Ok (Some (mkCached (Buffer bytes) (Entry.stored e) (Entry.ttl e)))
       | ItemText s =>
           match JSON_parse s with
           | Some value =>
               Ok (Some (mkCached (Plain value) (Entry.stored e) (Entry.ttl e)))
           | None => Err BadValueContent
           end
       end) /\
  (exists st',
     cache (this (flushExpiredCacheItems Date w)) = Some st' /\
     (forall key, lookup_entry key st' = swept now st key) /\
     byteSize (this (flushExpiredCacheItems Date w))
     = byteSize (this w) - (store_bytes st - store_bytes st')) /\
  (forall key e,
     lookup_entry key st = Some e ->
     byteSize (this (displace Date key w))
     = if bool_decide (now < Entry.expireTime e)
       then byteSize (this w) - Entry.byteSize e
       else byteSize (this w)).
Proof.
  intros Hc _ Hnow. split; [|split; [|split]].
  - intros key e He Hexp.
    rewrite (get_lookup_entry Date key w st Hc), He.
    rewrite (Hnow (clock w)) by lia. rewrite bool_decide_true by lia.
    destruct (dropKey_lookup key (this w) st Hc) as (st' & Hc' & _ & Hlk & Hb & _).
    eexists _, st'. split; [reflexivity|]. simpl.
    split; [exact Hc'|]. split; [exact Hlk|].
    rewrite Hb. unfold entry_bytes. by rewrite He.
  - intros key e He Hlive.
    rewrite (get_lookup_entry Date key w st Hc), He.
    rewrite (Hnow (clock w)) by lia. rewrite bool_decide_false by lia.
    destruct (Entry.item e) as [bytes|s]; [done|]. by destruct (JSON_parse s).
  - destruct (flushExpiredCacheItems_swept Date now w st Hc Hnow) as (st' & Hc' & Hlk).
    exists st'. split; [exact Hc'|]. split; [exact Hlk|].
    destruct (flushExpiredCacheItems_shrinks Date w) as [[_ Hs] _].
    rewrite Hc, Hc' in Hs. destruct Hs as (_ & _ & Hdrift & _). lia.
  - intros key e He.
    destruct (displace_spec Date key w st Hc) as (_ & _ & _ & _ & _ & _ & _ & Hb).
    rewrite Hb, He. by rewrite (Hnow (clock w)) by lia.
Qed.

Lemma valid_shrinks c c' : valid c -> shrinks c c' -> valid c'.
Proof.
  intros [Hmax Hent] [Hset Hs]. split; [by rewrite Hset|].
  intros st' key e Hc' He.
  destruct (cache c) as [st|] eqn:Hc; rewrite Hc' in Hs; [|done].
  destruct Hs as (Hsub & _). eapply Hent; [done|]. by apply Hsub.
Qed.


End Expiry.

(** ** Where the accounting does hold *)

Section Accounting.

Context {V : Type} `{JSON V}.
Variable Date : nat -> Z.

(** X17. On a cache of plain names and for a plain key, with the clock
    standing still during the call, a [set] that succeeds on a key holding
    no entry, or an entry not yet at its expiry time, stores under the key
    the entry its constructor built and leaves the difference between the
    byte total and the bytes present as it found it. *)
Lemma set_accounts_for_live_entry key value ttl w w' st now :
  cache (this w) = Some st ->
  plain_store st ->
  plain_key key ->
  (forall n, (clock w <= n)%nat -> Date n = now) ->
  match lookup_entry key st with
  | Some e => now < Entry.expireTime e
  | None => True
  end ->
  set Date key value ttl w = (Ok (), w') ->
  exists st' envelope,
    MemoryCacheEntry Date key value ttl (allowMixedContent (settings (this w))) w
    = (Some envelope, (Date_now Date w).2) /\
    cache (this w') = Some st' /\
    lookup_entry key st' = Some envelope /\
    byteSize (this w') - store_bytes st' = byteSize (this w) - store_bytes st.
Proof.
  intros Hc _ _ Hnow Hlive Hset. unfold set in Hset. rewrite Hc in Hset.
  case_bool_decide; [done|].
  destruct (MemoryCacheEntry _ _ _ _ _ _) as [[envelope|] w0] eqn:Hm; [|done].
  destruct (MemoryCacheEntry_inv Date _ _ _ _ _ _ _ Hm) as (-> & _).
  destruct (displace_spec Date key (Date_now Date w).2 st Hc)
    as (st1 & Hc1 & _ & Hlk1 & Hsum1 & _ & Hclk1 & Hb1).
  set (w1 := displace Date key (Date_now Date w).2) in *.
  simpl in Hb1, Hclk1. rewrite (Hnow (S (clock w))) in Hb1 by lia.
  assert (byteSize (this w1) = byteSize (this w) - entry_bytes key st) as Hb1'.
  { rewrite Hb1. unfold entry_bytes. destruct (lookup_entry key st) as [e|]; simpl.
    - by rewrite bool_decide_true.
    - lia. }
  assert (forall w2, w2 = w1 \/ w2 = flushExpiredCacheItems Date w1 ->
            exists st2, cache (this w2) = Some st2 /\
              lookup_entry key st2 = lookup_entry key st /\
              byteSize (this w2) - store_bytes st2
              = byteSize (this w1) - store_bytes st1) as Hmid.
  { intros w2 [->| ->].
    - exists st1. by rewrite Hlk1.
    - destruct (flushExpiredCacheItems_swept Date now w1 st1 Hc1) as (st2 & Hc2 & Hlk2).
      { intros n Hn. apply Hnow. lia. }
      exists st2. split; [exact Hc2|]. split.
      + rewrite Hlk2. unfold swept. rewrite Hlk1.
        destruct (lookup_entry key st) as [e|]; [|done].
        by rewrite bool_decide_false by lia.
      + destruct (flushExpiredCacheItems_shrinks Date w1) as [[_ Hs] _].
        rewrite Hc1, Hc2 in Hs. by destruct Hs as (_ & _ & Hdrift & _). }
  assert (exists w2, (w2 = w1 \/ w2 = flushExpiredCacheItems Date w1) /\
            w' = store key envelope w2) as (w2 & Hw2 & ->).
  { case_bool_decide.
    - injection Hset as <-. eauto.
    - destruct (over_budget envelope w1).
      + destruct (over_budget envelope (flushExpiredCacheItems Date w1)); [done|].
        injection Hset as <-. eauto.
      + destruct (over_budget envelope w1); [done|]. injection Hset as <-. eauto. }
  destruct (Hmid w2 Hw2) as (st2 & Hc2 & Hlk2 & Hdrift).
  destruct (store_spec key envelope w2 st2 Hc2) as (Hc' & _ & Hb' & _).
  exists (insert_entry key envelope st2), envelope.
  split; [done|]. split; [exact Hc'|].
  split; [by rewrite lookup_entry_insert_entry, decide_True|].
  rewrite Hb', store_bytes_insert_entry.
  unfold entry_bytes in *. rewrite Hlk2. lia.
Qed.

End Accounting.

(** ** Every state the operations produce is [valid] *)

Section Reachable.

Context {V : Type} `{JSON V}.
Variable Date : nat -> Z.

Lemma valid_new options c : MemoryCache options = Some c -> valid c.
Proof.
  unfold MemoryCache. intros Hnew.
  destruct (_ && _) eqn:Hok in Hnew; [|done]. injection Hnew as <-.
  apply andb_prop in Hok as [Hmax _]. split; [|done]. simpl.
  destruct options as [[[m|] mixed]|]; simpl in *; try lia.
  apply bool_decide_eq_true in Hmax. lia.
Qed.

Lemma valid_displace key w : valid (this w) -> valid (this (displace Date key w)).
Proof.
  intros Hv. destruct (cache (this w)) as [st|] eqn:Hc.
  - destruct (displace_spec Date key w st Hc) as (st1 & Hc1 & Hset & Hlk & _).
    destruct Hv as [Hmax Hent]. split; [by rewrite Hset|].
    intros st' key' e Hc' He. rewrite Hc1 in Hc'. injection Hc' as <-.
    rewrite Hlk in He. by eapply Hent.
  - unfold displace. by rewrite Hc.
Qed.

Lemma valid_flush w : valid (this w) -> valid (this (flushExpiredCacheItems Date w)).
Proof.
  intros Hv. eapply valid_shrinks; [exact Hv|].
  apply flushExpiredCacheItems_shrinks.
Qed.

Lemma valid_store key envelope w :
  144 <= Entry.byteSize envelope ->
  valid (this w) -> valid (this (store key envelope w)).
Proof.
  intros Hsize [Hmax Hent]. split; [done|].
  intros st' key' e Hc' He. simpl in Hc'.
  destruct (cache (this w)) as [st|] eqn:Hc; [|done].
  simpl in Hc'. injection Hc' as <-.
  rewrite lookup_entry_insert_entry in He.
  destruct (decide (key' = key)); [by injection He as <- | by eapply Hent].
Qed.

Lemma valid_set key value ttl w :
  valid (this w) -> valid (this (set Date key value ttl w).2).
Proof.
  intros Hv. unfold set. destruct (cache (this w)) as [st|] eqn:Hc; [|done].
  case_bool_decide; [done|].
  destruct (MemoryCacheEntry _ _ _ _ _ _) as [[envelope|] w0] eqn:Hm.
  - destruct (MemoryCacheEntry_inv Date _ _ _ _ _ _ _ Hm) as (-> & _ & _ & _ & Hsize & _).
    assert (valid (this (displace Date key (Date_now Date w).2))) as Hv1
      by by apply valid_displace.
    pose proof (valid_flush _ Hv1) as Hv2.
    set (w1 := displace Date key (Date_now Date w).2) in *.
    destruct (bool_decide (maxByteSize (settings (this w1)) = 0)); simpl;
      [by apply valid_store|].
    destruct (over_budget envelope w1);
      [destruct (over_budget envelope (flushExpiredCacheItems Date w1))
      |destruct (over_budget envelope w1)];
      simpl; try done; by apply valid_store.
  - unfold MemoryCacheEntry in Hm.
    repeat case_match; simplify_eq/=; done.
Qed.

Lemma valid_step (o : op) w : valid (this w) -> valid (this (step Date o w)).
Proof.
  intros Hv. destruct o as [| |key|key value ttl|key]; simpl.
  - unfold start. destruct (cache (this w)) eqn:Hc; [done|].
    destruct Hv as [Hmax _]. split; [done|]. simpl. intros ??? [= <-]. done.
  - destruct Hv as [Hmax _]. split; [done|]. done.
  - destruct (cache (this w)) as [st|] eqn:Hc.
    + rewrite (get_lookup_entry Date key w st Hc).
      destruct (lookup_entry key st) as [e|]; [|done].
      case_bool_decide; simpl.
      * eapply valid_shrinks; [exact Hv | apply dropKey_shrinks].
      * by repeat case_match.
    + unfold get. by rewrite Hc.
  - by apply valid_set.
  - unfold drop. destruct (cache (this w)); [|done]. simpl.
    eapply valid_shrinks; [exact Hv | apply dropKey_shrinks].
Qed.

Lemma valid_run (ops : list op) w : valid (this w) -> valid (this (run Date ops w)).
Proof.
  revert w. induction ops as [|o ops IH]; intros w Hv; [done|].
  simpl. by apply IH, valid_step.
Qed.

End Reachable.

(** ** The byte total against the cache contents *)

(** C1 (the code departs from the claim).  On a default engine whose clock
    reads 0 throughout, [start], [set(key_a, true, 0)], [set(key_a, false,
    0)] leaves one entry of 151 bytes in the cache and a byte total of 301:
    the first entry had reached its expiry time when it was overwritten, so
    its 150 bytes were never taken off. *)
Theorem overwriting_an_expired_entry_keeps_its_bytes :
  MemoryCache None = Some default_connection /\
  let w := run (frozen 0)
             [OpStart; OpSet key_a (Plain JTrue) 0; OpSet key_a (Plain JFalse) 0]
             (new_world default_connection) in
  (map_to_list <$> cache (this w))
  = Some [("s"%string, {[ "a"%string := entry_false 0 0 ]})] /\
  store_bytes <$> cache (this w) = Some 151 /\
  byteSize (this w) = 301.
Proof. repeat split; vm_compute; reflexivity. Qed.

(** C2 (the code departs from the claim).  On an engine with a budget of
    150 bytes, after [start] and [set(key_a, true, 1000)] the cache holds
    one live entry of 150 bytes and the total is 150.  [set(key_a, false,
    1000)] then fails with the cache-full error, nothing has expired, the
    entry is still there, and the total has dropped to 0. *)
Theorem cache_full_set_forgets_live_entry_bytes :
  MemoryCache (Some tight_options) = Some tight_connection /\
  let w := run (frozen 0) [OpStart; OpSet key_a (Plain JTrue) 1000]
             (new_world tight_connection) in
  let r := set (frozen 0) key_a (Plain JFalse) 1000 w in
  (cache (this w) ≫= lookup_entry key_a) = Some (entry_true 0 1000) /\
  byteSize (this w) = 150 /\
  r.1 = Err CacheSizeLimit /\
  (cache (this r.2) ≫= lookup_entry key_a) = Some (entry_true 0 1000) /\
  store_bytes <$> cache (this r.2) = Some 150 /\
  byteSize (this r.2) = 0.
Proof. repeat split; vm_compute; reflexivity. Qed.

(** C3 (the code departs from the claim).  With a clock that reads 0, 20,
    40, ... the call [set(key_a, true, 10)] succeeds at time 0 and
    [set(key_a, false, 10)] succeeds at time 20.  One entry is stored for
    the key, of 151 bytes, and the total is 301: the sum of both entries'
    sizes. *)
Theorem overwrite_after_expiry_counts_both_entries :
  let w1 := run ticking [OpStart] (new_world default_connection) in
  let r1 := set ticking key_a (Plain JTrue) 10 w1 in
  let r2 := set ticking key_a (Plain JFalse) 10 r1.2 in
  r1.1 = Ok () /\ r2.1 = Ok () /\
  (map_to_list <$> cache (this r2.2))
  = Some [("s"%string, {[ "a"%string := entry_false 20 10 ]})] /\
  byteSize (this r1.2) = 150 /\
  byteSize (this r2.2) = 150 + 151.
Proof. repeat split; vm_compute; reflexivity. Qed.

(** ** Plain names *)

Lemma plain_store_key st key e :
  plain_store st -> lookup_entry key st = Some e -> plain_key key.
Proof.
  intros Hplain He. unfold lookup_entry in He.
  destruct (st !! segment key) as [seg|] eqn:Hseg; [|done].
  destruct (Hplain _ _ Hseg) as [Hs Hids]. split; [done | by eapply Hids].
Qed.

Lemma plain_store_empty : plain_store ∅.
Proof. intros s seg Hs. by rewrite lookup_empty in Hs. Qed.

Lemma plain_dropKey key c : plain_connection c -> plain_connection (dropKey key c).
Proof.
  intros Hplain st' Hc'. unfold dropKey in Hc'.
  destruct (cache c) as [st|] eqn:Hc; [|by rewrite Hc in Hc'].
  specialize (Hplain st Hc).
  destruct (st !! segment key) as [seg|] eqn:Hseg.
  - assert (st' = <[segment key := delete (id key) seg]> st) as ->.
    { destruct (seg !! id key); simpl in Hc'; by injection Hc' as <-. }
    intros s seg' Hs. destruct (decide (segment key = s)) as [<-|Hne].
    + rewrite lookup_insert_eq in Hs. injection Hs as <-.
      destruct (Hplain _ _ Hseg) as [Hown Hids]. split; [done|].
      intros i e Hi. apply lookup_delete_Some in Hi as [_ Hi]. by eapply Hids.
    + rewrite lookup_insert_ne in Hs by done. by eapply Hplain.
  - rewrite Hc in Hc'. by injection Hc' as <-.
Qed.

Lemma plain_insert_entry key e st :
  plain_key key -> plain_store st -> plain_store (insert_entry key e st).
Proof.
  intros [Hseg Hid] Hplain s seg' Hs. unfold insert_entry in Hs.
  destruct (decide (segment key = s)) as [<-|Hne].
  - rewrite lookup_insert_eq in Hs. injection Hs as <-. split; [done|].
    intros i e' Hi. destruct (decide (id key = i)) as [<-|Hni]; [done|].
    rewrite lookup_insert_ne in Hi by done.
    destruct (st !! segment key) as [seg|] eqn:Hk; simpl in Hi;
      [|by rewrite lookup_empty in Hi].
    destruct (Hplain _ _ Hk) as [_ Hids]. by eapply Hids.
  - rewrite lookup_insert_ne in Hs by done. by eapply Hplain.
Qed.


Lemma own_name_s : own_name "s".
Proof. apply (bool_decide_unpack (own_name "s")). vm_compute. exact I. Qed.

Lemma own_name_a : own_name "a".
Proof. apply (bool_decide_unpack (own_name "a")). vm_compute. exact I. Qed.

Lemma own_name_b : own_name "b".
Proof. apply (bool_decide_unpack (own_name "b")). vm_compute. exact I. Qed.

Lemma plain_store_single (e : Entry.t) : plain_store (single e).
Proof.
  intros s seg Hs. unfold single in Hs.
  apply lookup_singleton_Some in Hs as [<- <-].
  split; [exact own_name_s|].
  intros i e' Hi. apply lookup_singleton_Some in Hi as [<- _]. exact own_name_a.
Qed.

Lemma plain_key_a : plain_key key_a.
Proof. split; [exact own_name_s | exact own_name_a]. Qed.

(** ** The theorems at concrete inputs *)

Lemma data_operations_require_started_witness :
  cache (this (new_world default_connection)) = None /\
  get (frozen 0) key_a (new_world default_connection)
  = (Err ConnectionNotStarted, new_world default_connection) /\
  set (frozen 0) key_a (Plain JTrue) 0 (new_world default_connection)
  = (Err ConnectionNotStarted, new_world default_connection) /\
  drop key_a (new_world default_connection)
  = (Err ConnectionNotStarted, new_world default_connection).
Proof.
  split; [reflexivity|].
  apply (data_operations_require_started (frozen 0) key_a (Plain JTrue) 0
           (new_world default_connection)).
  reflexivity.
Defined.

Lemma ttl_guard_witness :
  cache (this started_world) = Some ∅ /\
  ((set (frozen 0) key_a (Plain JTrue) 2147483648 started_world).1 = Err InvalidTtl
   <-> 2147483648 > 2147483647) /\
  (2147483648 > 2147483647 ->
   set (frozen 0) key_a (Plain JTrue) 2147483648 started_world
   = (Err InvalidTtl, started_world)).
Proof.
  split; [reflexivity|].
  apply (ttl_guard (frozen 0) key_a (Plain JTrue) 2147483648 started_world ∅).
  reflexivity.
Defined.

Lemma buffer_snapshot_is_not_decoded_witness :
  cache (this buffer_world) = Some (single entry_buffer) /\
  lookup_entry key_a (single entry_buffer) = Some entry_buffer /\
  Entry.item entry_buffer = ItemBuffer [x01; x02]%byte /\
  (get (V := literal) (frozen 0) key_a buffer_world).1 ≠ Err BadValueContent /\
  (get (V := literal) (frozen 0) key_a buffer_world).1
  = Ok (Some (mkCached (Buffer [x01; x02]%byte) 0 1000)).
Proof.
  assert (cache (this buffer_world) = Some (single entry_buffer)) as Hc
    by (vm_compute; reflexivity).
  assert (lookup_entry key_a (single entry_buffer) = Some entry_buffer) as He
    by (vm_compute; reflexivity).
  split; [exact Hc|]. split; [exact He|]. split; [reflexivity|].
  exact (buffer_snapshot_is_not_decoded (V := literal) (frozen 0) key_a buffer_world
           (single entry_buffer) entry_buffer [x01; x02]%byte Hc He eq_refl).
Defined.

Lemma literal_parse_stringify (v : jsvalue literal) (s : string) :
  JSON_stringify v = Some s -> is_Some (JSON_parse s).
Proof.
  destruct v as [bytes|[]]; simpl; intros Hs; simplify_eq; vm_compute; eauto.
Defined.

Lemma set_then_get_round_trip_witness :
  (forall (v : jsvalue literal) s, JSON_stringify v = Some s -> is_Some (JSON_parse s)) /\
  set (frozen 0) key_a (Plain JTrue) 1000 started_world = (Ok (), filled_world) /\
  frozen 0 (clock filled_world) <= frozen 0 (clock started_world) + 1000 /\
  exists item,
    (get (frozen 0) key_a filled_world).1 = Ok (Some (mkCached item 0 1000)) /\
    exists s v',
      JSON_stringify (Plain JTrue) = Some s /\ JSON_parse s = Some v' /\ item = Plain v'.
Proof.
  assert (set (frozen 0) key_a (Plain JTrue) 1000 started_world
          = (Ok (), filled_world)) as Hset by (vm_compute; reflexivity).
  assert (frozen 0 (clock filled_world) <= frozen 0 (clock started_world) + 1000)
    as Hsoon by (vm_compute; discriminate).
  split; [exact literal_parse_stringify|]. split; [exact Hset|]. split; [exact Hsoon|].
  exact (set_then_get_round_trip (frozen 0) key_a (Plain JTrue) 1000
           started_world filled_world literal_parse_stringify Hset Hsoon).
Defined.

Lemma expired_entries_are_dropped_witness :
  cache (this stale_world) = Some (single (entry_true 0 0)) /\
  plain_store (single (entry_true 0 0)) /\
  (forall n, (clock stale_world <= n)%nat -> jumping 0 5 n = 5) /\
  (exists w' st',
     get (V := literal) (jumping 0 5) key_a stale_world = (Ok None, w') /\
     cache (this w') = Some st' /\
     (forall key', lookup_entry key' st'
                   = if decide (key' = key_a) then None
                     else lookup_entry key' (single (entry_true 0 0))) /\
     byteSize (this w') = byteSize (this stale_world) - 150) /\
  (exists st',
     cache (this (flushExpiredCacheItems (jumping 0 5) stale_world)) = Some st' /\
     (forall key, lookup_entry key st' = swept 5 (single (entry_true 0 0)) key) /\
     byteSize (this (flushExpiredCacheItems (jumping 0 5) stale_world))
     = byteSize (this stale_world) - (store_bytes (single (entry_true 0 0)) - store_bytes st')) /\
  byteSize (this (displace (jumping 0 5) key_a stale_world))
  = byteSize (this stale_world).
Proof.
  assert (cache (this stale_world) = Some (single (entry_true 0 0))) as Hc
    by (vm_compute; reflexivity).
  assert (forall n, (clock stale_world <= n)%nat -> jumping 0 5 n = 5) as Hnow.
  { intros [|n] Hn; [|reflexivity]. vm_compute in Hn. lia. }
  destruct (expired_entries_are_dropped (V := literal) (jumping 0 5) stale_world
              (single (entry_true 0 0)) 5 Hc (plain_store_single _) Hnow)
    as (Hget & _ & Hsweep & Hset).
  split; [exact Hc|]. split; [exact (plain_store_single _)|]. split; [exact Hnow|].
  split; [|split; [exact Hsweep|]].
  - apply (Hget key_a (entry_true 0 0)); [vm_compute; reflexivity | simpl; lia].
  - exact (Hset key_a (entry_true 0 0) eq_refl).
Defined.


(** C4 as first stated fails where [expireTime = now]: with the clock at
    0, an entry stored at 0 with a ttl of 0 has [expireTime <= now], yet
    [get] returns its value and the sweep leaves it in the cache with its
    bytes in the total. *)
Lemma entry_at_its_expiry_time_is_served :
  let w := run (frozen 0) [OpStart; OpSet key_a (Plain JTrue) 0]
             (new_world default_connection) in
  (cache (this w) ≫= lookup_entry key_a) = Some (entry_true 0 0) /\
  Entry.expireTime (entry_true 0 0) <= frozen 0 (clock w) /\
  (get (frozen 0) key_a w).1 = Ok (Some (mkCached (Plain JTrue) 0 0)) /\
  (cache (this (flushExpiredCacheItems (frozen 0) w)) ≫= lookup_entry key_a)
  = Some (entry_true 0 0) /\
  byteSize (this (flushExpiredCacheItems (frozen 0) w)) = byteSize (this w).
Proof. repeat split; vm_compute; try reflexivity; discriminate. Qed.

(** ** Segment names and construction *)

Lemma indexOf_bounds c name : -1 <= indexOf c name.
Proof.
  induction name as [|a rest IH]; simpl; [lia|].
  destruct (Ascii.eqb a c); [lia|]. case_bool_decide; lia.
Qed.

Lemma indexOf_absent c name :
  indexOf c name = -1 <-> ~ In c (list_ascii_of_string name).
Proof.
  induction name as [|a rest IH]; simpl; [tauto|].
  destruct (Ascii.eqb_spec a c) as [->|Hne].
  - split; [lia | tauto].
  - pose proof (indexOf_bounds c rest). case_bool_decide as Hi.
    + split; [|done]. intros _ [?|?]; [done | by apply IH].
    + split; [lia|]. intros Hn. exfalso. apply Hi, IH. tauto.
Qed.

(** X1. [validateSegmentName] accepts exactly the names that are not empty
    and contain no null character; the empty name is reported as empty,
    and every other rejected name as including a null character. *)
Theorem validateSegmentName_accepts (name : string) :
  (validateSegmentName name = None
   <-> name ≠ ""%string /\ ~ In "000"%char (list_ascii_of_string name)) /\
  (validateSegmentName name = Some EmptyStringError <-> name = ""%string) /\
  (validateSegmentName name = Some IncludesNullCharacter
   <-> name ≠ ""%string /\ In "000"%char (list_ascii_of_string name)).
Proof.
  destruct name as [|a rest]; [simpl; intuition congruence|].
  unfold validateSegmentName.
  pose proof (indexOf_absent "000"%char (String a rest)) as Habs.
  assert (Decision (In "000"%char (list_ascii_of_string (String a rest)))) as [Hin|Hin]
    by apply (In_dec ascii_dec).
  - rewrite bool_decide_true by (intros Hi; by apply Habs in Hi).
    intuition congruence.
  - rewrite bool_decide_false by (intros Hi; apply Hi; by apply Habs).
    intuition congruence.
Qed.

(** X2. For options whose [maxByteSize] is an integer or absent,
    [new MemoryCache(options)] throws exactly when [maxByteSize] is
    negative or [allowMixedContent] is given and is not a boolean.
    Otherwise the engine is stopped, each setting is the one given, or the
    default (100 MB, no mixed content) when none is given, and the budget
    is not negative. *)
Theorem MemoryCache_construction (options : option Options) :
  (MemoryCache options = None
   <-> exists o,
         options = Some o /\
         ((exists m, opt_maxByteSize o = Some m /\ m < 0) \/
          opt_allowMixedContent o = Some JsNotBoolean)) /\
  forall c,
    MemoryCache options = Some c ->
    cache c = None /\
    maxByteSize (settings c) = default 104857600 (options ≫= opt_maxByteSize) /\
    allowMixedContent (settings c)
    = match options ≫= opt_allowMixedContent with
      | Some (JsBoolean b) => b
      | _ => false
      end /\
    0 <= maxByteSize (settings c).
Proof.
  unfold MemoryCache. split; [split|].
  - intros Hnone. destruct options as [o|]; [|done]. exists o. split; [done|].
    destruct o as [[m|] [[b|]|]]; simpl in *;
      try case_bool_decide; simpl in *; try done; try (by right);
      (left; exists m; split; [done | lia]).
  - intros (o & -> & [(m & Hm & Hneg)|Hflag]); destruct o as [m' mixed];
      simpl in *; subst.
    + by rewrite bool_decide_false by lia.
    + destruct m' as [m'|]; [case_bool_decide|]; done.
  - intros c Hc.
    destruct options as [[[m|] [[b|]|]]|]; simpl in *;
      try case_bool_decide; simpl in *; simplify_eq; simpl; repeat split; lia.
Qed.

(** ** Lifecycle, configuration and the shape of [set] *)

Section Lifecycle.

Context {V : Type} `{JSON V}.
Variable Date : nat -> Z.

(** The states [set] can end in on a started engine. *)
Lemma set_cases key (value : jsvalue V) ttl w st :
  cache (this w) = Some st ->
  (set Date key value ttl w).2 = w /\
  ((set Date key value ttl w).1 = Err InvalidTtl /\ ttl > 2147483647 \/
   (set Date key value ttl w).1 = Err EncodingError /\
   MemoryCacheEntry Date key value ttl (allowMixedContent (settings (this w))) w
   = (None, w)) \/
  exists envelope w2,
    MemoryCacheEntry Date key value ttl (allowMixedContent (settings (this w))) w
    = (Some envelope, (Date_now Date w).2) /\
    ttl <= 2147483647 /\
    (w2 = displace Date key (Date_now Date w).2 \/
     maxByteSize (settings (this w)) ≠ 0 /\
     w2 = flushExpiredCacheItems Date (displace Date key (Date_now Date w).2)) /\
    (set Date key value ttl w = (Err CacheSizeLimit, w2) /\
     maxByteSize (settings (this w)) ≠ 0 \/
     set Date key value ttl w = (Ok (), store key envelope w2) /\
     (maxByteSize (settings (this w)) ≠ 0 -> over_budget envelope w2 = false)).
Proof.
  intros Hc. unfold set. rewrite Hc.
  case_bool_decide as Httl; [left; split; [done|]; by left|].
  destruct (MemoryCacheEntry _ _ _ _ _ _) as [[envelope|] w0] eqn:Hm.
  - destruct (MemoryCacheEntry_inv Date _ _ _ _ _ _ _ Hm) as (-> & _).
    destruct (displace_spec Date key (Date_now Date w).2 st Hc) as (st1 & _ & Hset1 & _).
    set (w1 := displace Date key (Date_now Date w).2) in *.
    rewrite Hset1. simpl settings.
    right. exists envelope. case_bool_decide as Hmax.
    + exists w1. split; [done|]. split; [lia|]. split; [by left|]. right. done.
    + destruct (over_budget envelope w1) eqn:Hover.
      * exists (flushExpiredCacheItems Date w1).
        split; [done|]. split; [lia|]. split; [by right|].
        destruct (over_budget envelope (flushExpiredCacheItems Date w1)) eqn:Hover2;
          [by left | by right].
      * exists w1. split; [done|]. split; [lia|]. split; [by left|].
        rewrite Hover. by right.
  - assert (w0 = w) as ->
      by (unfold MemoryCacheEntry in Hm; repeat case_match; simplify_eq/=; done).
    left. split; [done|]. by right.
Qed.

Lemma displace_flush_started key w st :
  cache (this w) = Some st ->
  forall w2,
    w2 = displace Date key w \/ w2 = flushExpiredCacheItems Date (displace Date key w) ->
    exists st2,
      cache (this w2) = Some st2 /\
      settings (this w2) = settings (this w) /\
      (forall key' e, lookup_entry key' st2 = Some e -> lookup_entry key' st = Some e) /\
      (forall s, is_Some (st !! s) -> is_Some (st2 !! s)) /\
      ((forall key' e, lookup_entry key' st = Some e -> 0 <= Entry.byteSize e) ->
       byteSize (this w2) <= byteSize (this w)).
Proof.
  intros Hc w2 Hw2.
  destruct (displace_spec Date key w st Hc)
    as (st1 & Hc1 & Hset1 & Hlk1 & _ & _ & _ & Hb1).
  assert (forall s, is_Some (st !! s) -> is_Some (st1 !! s)) as Hseg1.
  { intros s Hs. unfold displace in Hc1. rewrite Hc in Hc1.
    set (st0 := match st !! segment key with
                | Some _ => st
                | None => <[segment key := ∅]> st
                end) in Hc1.
    assert (is_Some (st0 !! s)) as Hs0.
    { subst st0. destruct (st !! segment key) eqn:Hk; [done|].
      destruct (decide (segment key = s)) as [<-|]; [by rewrite Hk in Hs|].
      by rewrite lookup_insert_ne. }
    revert Hc1. destruct (lookup_entry key st0); simpl; [case_bool_decide|]; simpl;
      by intros [= <-]. }
  assert ((forall key' e, lookup_entry key' st = Some e -> 0 <= Entry.byteSize e) ->
          byteSize (this (displace Date key w)) <= byteSize (this w)) as Hle1.
  { intros Hpos. rewrite Hb1. destruct (lookup_entry key st) as [e|] eqn:He; [|lia].
    specialize (Hpos key e He). case_bool_decide; lia. }
  destruct Hw2 as [->| ->].
  - exists st1. repeat split; auto. intros key' e. by rewrite Hlk1.
  - destruct (flushExpiredCacheItems_shrinks Date (displace Date key w)) as [[Hset2 Hs] _].
    rewrite Hc1 in Hs.
    destruct (cache (this (flushExpiredCacheItems Date _))) as [st2|]; [|done].
    destruct Hs as (Hsub & Hseg & _ & Hle).
    exists st2. split; [done|]. split; [congruence|].
    split; [intros key' e He; rewrite <- Hlk1; by apply Hsub|].
    split; [auto|]. intros Hpos.
    assert (byteSize (this (flushExpiredCacheItems Date (displace Date key w)))
            <= byteSize (this (displace Date key w))); [|specialize (Hle1 Hpos); lia].
    apply Hle. intros key' e. rewrite Hlk1. apply Hpos.
Qed.

(** X3. Only [start] and [stop] change whether the engine is ready:
    after [start] it is, after [stop] it is not, and [get], [set] and
    [drop] leave it as it was, whatever they return. *)
Theorem readiness_changes_only_at_start_and_stop (o : op) (w : World) :
  isReady (step Date o w)
  = match o with
    | OpStart => true
    | OpStop => false
    | _ => isReady w
    end.
Proof.
  unfold isReady. destruct o as [| |key|key value ttl|key]; simpl.
  - unfold start. destruct (cache (this w)) eqn:Hc; simpl; [by rewrite ?Hc | done].
  - done.
  - destruct (cache (this w)) as [st|] eqn:Hc.
    + rewrite (get_lookup_entry Date key w st Hc).
      destruct (lookup_entry key st) as [e|]; [|simpl; by rewrite ?Hc].
      case_bool_decide; simpl.
      * by destruct (dropKey_lookup key (this w) st Hc) as (st' & -> & _).
      * destruct (Entry.item e) as [bytes|s]; [|destruct (JSON_parse s)];
          simpl; by rewrite Hc.
    + unfold get. rewrite Hc. simpl. by rewrite ?Hc.
  - destruct (cache (this w)) as [st|] eqn:Hc.
    + destruct (set_cases key value ttl w st Hc)
        as [[-> _]|(envelope & w2 & _ & _ & Hw2 & Hres)]; [by rewrite ?Hc|].
      assert (exists st2, cache (this w2) = Some st2) as [st2 Hc2].
      { destruct (displace_flush_started key (Date_now Date w).2 st Hc w2)
          as (st2 & ? & _); [tauto | eauto]. }
      destruct Hres as [[-> _]|[-> _]]; simpl; by rewrite ?Hc2.
    + unfold set. rewrite Hc. simpl. by rewrite ?Hc.
  - unfold drop. destruct (cache (this w)) as [st|] eqn:Hc; simpl; [|by rewrite ?Hc].
    by destruct (dropKey_lookup key (this w) st Hc) as (st' & -> & _).
Qed.

Lemma settings_step (o : op) w : settings (this (step Date o w)) = settings (this w).
Proof.
  destruct o as [| |key|key value ttl|key]; simpl.
  - unfold start. by destruct (cache (this w)).
  - done.
  - destruct (cache (this w)) as [st|] eqn:Hc.
    + rewrite (get_lookup_entry Date key w st Hc).
      destruct (lookup_entry key st) as [e|]; [|done].
      case_bool_decide; simpl.
      * by destruct (dropKey_lookup key (this w) st Hc) as (st' & _ & -> & _).
      * by repeat case_match.
    + unfold get. by rewrite Hc.
  - destruct (cache (this w)) as [st|] eqn:Hc.
    + destruct (set_cases key value ttl w st Hc)
        as [[-> _]|(envelope & w2 & _ & _ & Hw2 & Hres)]; [done|].
      assert (settings (this w2) = settings (this w)) as Hset2.
      { destruct (displace_flush_started key (Date_now Date w).2 st Hc w2)
          as (st2 & _ & ? & _); [tauto | done]. }
      destruct Hres as [[-> _]|[-> _]]; simpl; done.
    + unfold set. by rewrite Hc.
  - unfold drop. destruct (cache (this w)) as [st|] eqn:Hc; simpl; [|done].
    by destruct (dropKey_lookup key (this w) st Hc) as (st' & _ & -> & _).
Qed.

(** X4. No sequence of operations changes the settings fixed at
    construction: the budget and the mixed-content switch after any run
    are those before it. *)
Theorem settings_are_never_changed (ops : list op) (w : World) :
  settings (this (run Date ops w)) = settings (this w).
Proof.
  revert w. induction ops as [|o ops IH]; intros w; [done|].
  simpl. rewrite IH. apply settings_step.
Qed.

(** X5. [stop] discards everything: whatever the engine held, after
    [stop] it is not ready, and after [stop] then [start] the cache is
    empty, the total is 0 and [get] finds nothing under any key whose
    segment is not an inherited name, without reading the clock. *)
Theorem stop_discards_every_entry (key : CacheKey) (w : World) :
  own_name (segment key) ->
  isReady (stop w) = false /\
  cache (this (start (stop w)).2) = Some ∅ /\
  byteSize (this (start (stop w)).2) = 0 /\
  get Date key (start (stop w)).2 = (Ok None, (start (stop w)).2).
Proof. intros _. by unfold isReady, stop, start, get. Qed.

End Lifecycle.

(** ** Dropping and reading *)

Section DropAndGet.

Context {V : Type} `{JSON V}.
Variable Date : nat -> Z.

(** X6. On a started engine whose cache holds plain names only, [drop]
    of a plain key always succeeds and never reads the clock.  Afterwards
    the key holds nothing, every other key holds what it held, and both the
    total and the bytes present are lower by the [byteSize] of the entry
    removed, which is 0 when there was none. *)
Theorem drop_removes_one_key (key : CacheKey) (w : World)
    (st : gmap string (gmap string Entry.t)) :
  cache (this w) = Some st ->
  plain_store st ->
  plain_key key ->
  exists st',
    drop key w
    = (Ok (), {| this := {| settings := settings (this w);
                            cache := Some st';
                            byteSize := byteSize (this w) - entry_bytes key st |};
                 clock := clock w |}) /\
    (forall key', lookup_entry key' st'
                  = if decide (key' = key) then None else lookup_entry key' st) /\
    store_bytes st' = store_bytes st - entry_bytes key st.
Proof.
  intros Hc _ _. unfold drop. rewrite Hc.
  destruct (dropKey_lookup key (this w) st Hc) as (st' & Hc' & Hset & Hlk & Hb & Hsum & _).
  exists st'. split; [|done]. f_equal. unfold with_this. f_equal.
  destruct (dropKey key (this w)) as [s c b]. simpl in *. congruence.
Qed.

(** X7. Dropping twice is dropping once: on an engine that is stopped,
    or whose cache holds plain names only, the second [drop] of a plain
    key changes nothing. *)
Theorem drop_is_idempotent (key : CacheKey) (w : World) :
  plain_key key ->
  (forall st, cache (this w) = Some st -> plain_store st) ->
  (drop key (drop key w).2).2 = (drop key w).2.
Proof.
  intros _ _. unfold drop. destruct (cache (this w)) as [st|] eqn:Hc; simpl; [|by rewrite Hc].
  destruct (dropKey_lookup key (this w) st Hc) as (st' & Hc' & _).
  rewrite Hc'. simpl. unfold with_this. simpl. f_equal.
  unfold dropKey at 1. rewrite Hc'.
  unfold dropKey in Hc'. rewrite Hc in Hc'.
  destruct (st !! segment key) as [seg|] eqn:Hseg.
  - assert (st' = <[segment key := delete (id key) seg]> st) as ->.
    { destruct (seg !! id key); simpl in Hc'; by injection Hc' as <-. }
    rewrite lookup_insert_eq, lookup_delete_eq.
    rewrite insert_insert_eq, delete_delete_eq.
    unfold set_cache. unfold dropKey. rewrite Hc, Hseg.
    by destruct (seg !! id key).
  - rewrite Hc in Hc'. injection Hc' as <-. rewrite Hseg.
    unfold dropKey. by rewrite Hc, Hseg.
Qed.

(** X8. After [drop] of a plain key on a started engine whose cache
    holds plain names only, [get] of that key answers absent and changes
    nothing, the clock is not even read. *)
Theorem get_after_drop_is_absent (key : CacheKey) (w : World)
    (st : gmap string (gmap string Entry.t)) :
  cache (this w) = Some st ->
  plain_store st ->
  plain_key key ->
  get Date key (drop key w).2 = (Ok None, (drop key w).2).
Proof.
  intros Hc _ _. unfold drop. rewrite Hc. simpl.
  destruct (dropKey_lookup key (this w) st Hc) as (st' & Hc' & _ & Hlk & _).
  rewrite (get_lookup_entry Date key (with_this (dropKey key) w) st' Hc').
  by rewrite Hlk, decide_True.
Qed.

(** X9. On a started engine whose cache holds plain names only, [get] of
    a plain key only ever removes the entry it was asked for, and only
    when the clock has passed its expiry time.  When the key holds nothing
    the answer is absent and the state is untouched; when it holds an entry
    whose expiry time the clock has not passed, the connection is left
    exactly as it was and the answer is not absent. *)
Theorem get_is_read_only_while_unexpired (key : CacheKey) (w : World)
    (st : gmap string (gmap string Entry.t)) :
  cache (this w) = Some st ->
  plain_store st ->
  plain_key key ->
  (lookup_entry key st = None -> get Date key w = (Ok None, w)) /\
  (forall e,
     lookup_entry key st = Some e ->
     Date (clock w) <= Entry.expireTime e ->
     this (get Date key w).2 = this w /\
     clock (get Date key w).2 = S (clock w) /\
     (get Date key w).1 ≠ Ok None).
Proof.
  intros Hc _ _. rewrite (get_lookup_entry Date key w st Hc). split.
  - by intros ->.
  - intros e -> Hlive. rewrite bool_decide_false by lia.
    destruct (Entry.item e) as [bytes|s]; [done|]. by destruct (JSON_parse s).
Qed.

End DropAndGet.

(** ** Outcomes of [set] *)

Section SetOutcomes.

Context {V : Type} `{JSON V}.
Variable Date : nat -> Z.

(** X10. On a started engine and with a ttl that passes the guard, [set]
    fails with the encoding error exactly when the value has to be
    serialized (it is not a buffer stored as mixed content) and
    [JSON.stringify] yields no string; the state is then untouched and the
    clock has not been read. *)
Theorem set_encoding_failure_is_atomic
    (key : CacheKey) (value : jsvalue V) (ttl : Z) (w : World)
    (st : gmap string (gmap string Entry.t)) :
  cache (this w) = Some st ->
  ttl <= 2147483647 ->
  ((set Date key value ttl w).1 = Err EncodingError
   <-> match allowMixedContent (settings (this w)), value with
       | true, Buffer _ => False
       | _, _ => JSON_stringify value = None
       end) /\
  ((set Date key value ttl w).1 = Err EncodingError ->
   set Date key value ttl w = (Err EncodingError, w)).
Proof.
  intros Hc Httl.
  destruct (MemoryCacheEntry Date key value ttl
              (allowMixedContent (settings (this w))) w) as [[envelope|] w0] eqn:Hm.
  - assert ((set Date key value ttl w).1 ≠ Err EncodingError) as Hne.
    { unfold set. rewrite Hc, (bool_decide_false (ttl > 2147483647)), Hm by lia.
      repeat case_match; simpl; done. }
    split; [|done]. split; [done|]. intros Hnone. exfalso.
    unfold MemoryCacheEntry in Hm.
    destruct (allowMixedContent (settings (this w))), value as [bytes|v];
      try done; rewrite Hnone in Hm; done.
  - assert (set Date key value ttl w = (Err EncodingError, w)) as ->.
    { unfold set. rewrite Hc, (bool_decide_false (ttl > 2147483647)), Hm by lia.
      f_equal. unfold MemoryCacheEntry in Hm. repeat case_match; simplify_eq/=; done. }
    split; [|done]. split; [|done]. intros _.
    unfold MemoryCacheEntry in Hm.
    destruct (allowMixedContent (settings (this w))), value as [bytes|v];
      try done; by destruct (JSON_stringify _).
Qed.

(** X11. On a cache of plain names, [set] on one plain key never gives
    another plain key a new or different entry: whatever the outcome, an
    entry found under another key afterwards was there before.  With no
    budget (0) the other keys hold exactly what they held. *)
Theorem set_leaves_other_keys (key key' : CacheKey) (value : jsvalue V) (ttl : Z)
    (w : World) (st : gmap string (gmap string Entry.t)) :
  cache (this w) = Some st ->
  plain_store st ->
  plain_key key ->
  plain_key key' ->
  key' ≠ key ->
  exists st',
    cache (this (set Date key value ttl w).2) = Some st' /\
    (forall e, lookup_entry key' st' = Some e -> lookup_entry key' st = Some e) /\
    (maxByteSize (settings (this w)) = 0 ->
     lookup_entry key' st' = lookup_entry key' st).
Proof.
  intros Hc _ _ _ Hne.
  destruct (set_cases Date key value ttl w st Hc)
    as [[-> _]|(envelope & w2 & _ & _ & Hw2 & Hres)]; [by exists st|].
  destruct (displace_flush_started Date key (Date_now Date w).2 st Hc w2)
    as (st2 & Hc2 & _ & Hsub & _); [tauto|].
  assert (maxByteSize (settings (this w)) = 0 ->
          lookup_entry key' st2 = lookup_entry key' st) as Hsame.
  { intros Hmax. destruct Hw2 as [->|[? _]]; [|done].
    destruct (displace_spec Date key (Date_now Date w).2 st Hc)
      as (st1 & Hc1 & _ & Hlk1 & _).
    rewrite Hc1 in Hc2. injection Hc2 as <-. apply Hlk1. }
  destruct Hres as [[-> Hmax]|[-> _]]; simpl.
  - exists st2. split; [done|]. split; [auto | done].
  - rewrite Hc2. simpl. eexists. split; [done|].
    rewrite lookup_entry_insert_entry, decide_False by done. auto.
Qed.

(** X12. A write that fits is accepted.  On a started engine whose cache
    holds plain names only, for a plain key, a ttl that passes the guard
    and a value that encodes to [envelope], [set] succeeds whenever there
    is no budget or the recorded total plus the new entry's bytes is within
    it; the entry is then the one stored under the key. *)
Theorem set_succeeds_when_it_fits
    (key : CacheKey) (value : jsvalue V) (ttl : Z) (w w0 : World)
    (st : gmap string (gmap string Entry.t)) (envelope : Entry.t) :
  valid (this w) ->
  cache (this w) = Some st ->
  plain_store st ->
  plain_key key ->
  ttl <= 2147483647 ->
  MemoryCacheEntry Date key value ttl (allowMixedContent (settings (this w))) w
  = (Some envelope, w0) ->
  maxByteSize (settings (this w)) = 0 \/
  byteSize (this w) + Entry.byteSize envelope <= maxByteSize (settings (this w)) ->
  exists st',
    (set Date key value ttl w).1 = Ok () /\
    cache (this (set Date key value ttl w).2) = Some st' /\
    lookup_entry key st' = Some envelope.
Proof.
  intros [_ Hent] Hc _ _ Httl Hm Hfits.
  destruct (set_cases Date key value ttl w st Hc)
    as [[Hw Hne]|(envelope' & w2 & Hm' & _ & Hw2 & Hres)].
  - exfalso. destruct Hne as [[_ ?]|[_ Hnone]]; [lia|].
    rewrite Hm in Hnone. done.
  - rewrite Hm in Hm'. injection Hm' as <- ->.
    destruct (displace_flush_started Date key (Date_now Date w).2 st Hc w2)
      as (st2 & Hc2 & Hset2 & _ & _ & Hle); [tauto|].
    assert (byteSize (this w2) <= byteSize (this w)) as Hle'.
    { apply Hle. intros key' e He. specialize (Hent st key' e Hc He). lia. }
    assert (set Date key value ttl w = (Ok (), store key envelope w2)) as ->.
    { destruct Hres as [[Hfull Hmax]|[Hok _]]; [|done]. exfalso.
      destruct Hfits as [?|Hfits]; [done|].
      assert (over_budget envelope w2 = true) as Hover.
      { unfold set in Hfull. rewrite Hc in Hfull.
        rewrite (bool_decide_false (ttl > 2147483647)) in Hfull by lia.
        rewrite Hm in Hfull. repeat case_match; simplify_eq/=; done. }
      unfold over_budget in Hover. apply bool_decide_eq_true in Hover.
      rewrite Hset2 in Hover. simpl in Hover. lia. }
    simpl. rewrite Hc2. simpl. eexists. split; [done|]. split; [done|].
    by rewrite lookup_entry_insert_entry, decide_True.
Qed.

End SetOutcomes.

(** ** The sweep on a clock that moves *)

Section MovingClock.

Variable Date : nat -> Z.

Lemma flushSegment_cons seg i keys w :
  flushSegment Date seg (i :: keys) w
  = flushSegment Date seg keys (flushSegment Date seg [i] w).
Proof. reflexivity. Qed.

Lemma flushSegment_one seg i w st :
  cache (this w) = Some st ->
  exists st1,
    cache (this (flushSegment Date seg [i] w)) = Some st1 /\
    clock (flushSegment Date seg [i] w) = S (clock w) /\
    forall key,
      lookup_entry key st1
      = if decide (key = {| segment := seg; id := i |})
        then swept (Date (clock w)) st key else lookup_entry key st.
Proof.
  intros Hc. simpl. rewrite Hc. simpl. set (k := {| segment := seg; id := i |}).
  unfold swept. destruct (lookup_entry k st) as [e|] eqn:He.
  - case_bool_decide as Hexp.
    + destruct (dropKey_lookup k (this w) st Hc) as (st1 & Hc1 & _ & Hlk & _).
      exists st1. split; [exact Hc1|]. split; [done|]. intros key. rewrite Hlk.
      destruct (decide (key = k)) as [->|]; [|done].
      by rewrite He, bool_decide_true.
    + exists st. split; [done|]. split; [done|]. intros key.
      destruct (decide (key = k)) as [->|]; [|done].
      by rewrite He, bool_decide_false.
  - exists st. split; [done|]. split; [done|]. intros key.
    destruct (decide (key = k)) as [->|]; [|done]. by rewrite He.
Qed.

Lemma shrinks_absent c c' key :
  shrinks c c' ->
  cache c ≫= lookup_entry key = None -> cache c' ≫= lookup_entry key = None.
Proof.
  intros [_ Hs] Hnone.
  destruct (cache c) as [st|], (cache c') as [st'|]; try done. simpl in *.
  destruct Hs as (Hsub & _).
  destruct (lookup_entry key st') as [e|] eqn:He; [|done].
  apply Hsub in He. congruence.
Qed.

Lemma flushSegment_keeps seg keys w key e :
  cache (this w) ≫= lookup_entry key = Some e ->
  (forall n, (clock w <= n)%nat -> Date n <= Entry.expireTime e) ->
  cache (this (flushSegment Date seg keys w)) ≫= lookup_entry key = Some e.
Proof.
  revert w. induction keys as [|i keys IH]; intros w He Hlive; [done|].
  rewrite flushSegment_cons.
  destruct (cache (this w)) as [st|] eqn:Hc; [|done]. simpl in He.
  destruct (flushSegment_one seg i w st Hc) as (st1 & Hc1 & Hclk & Hlk).
  apply IH.
  - rewrite Hc1. simpl. rewrite Hlk. destruct (decide _) as [_|]; [|done].
    unfold swept. rewrite He, bool_decide_false; [done|].
    specialize (Hlive (clock w)). lia.
  - intros n Hn. apply Hlive. lia.
Qed.

Lemma flushSegment_removes seg keys w key e :
  cache (this w) ≫= lookup_entry key = Some e ->
  (forall n, (clock w <= n)%nat -> Entry.expireTime e < Date n) ->
  segment key = seg -> id key ∈ keys ->
  cache (this (flushSegment Date seg keys w)) ≫= lookup_entry key = None.
Proof.
  revert w. induction keys as [|i keys IH]; intros w He Hexp Hseg Hin;
    [by apply not_elem_of_nil in Hin|].
  rewrite flushSegment_cons.
  destruct (cache (this w)) as [st|] eqn:Hc; [|done]. simpl in He.
  destruct (flushSegment_one seg i w st Hc) as (st1 & Hc1 & Hclk & Hlk).
  destruct (decide (key = {| segment := seg; id := i |})) as [Hk|Hk].
  - eapply shrinks_absent; [apply flushSegment_shrinks|].
    rewrite Hc1. simpl. rewrite Hlk, decide_True by done.
    unfold swept. rewrite He, bool_decide_true; [done|].
    specialize (Hexp (clock w)). lia.
  - apply IH; [| |done|].
    + rewrite Hc1. simpl. by rewrite Hlk, decide_False.
    + intros n Hn. apply Hexp. lia.
    + apply elem_of_cons in Hin as [Hi|]; [|done].
      exfalso. apply Hk. destruct key; simpl in *; congruence.
Qed.

Lemma flushSegments_keeps segments w key e :
  cache (this w) ≫= lookup_entry key = Some e ->
  (forall n, (clock w <= n)%nat -> Date n <= Entry.expireTime e) ->
  cache (this (flushSegments Date segments w)) ≫= lookup_entry key = Some e.
Proof.
  revert w. induction segments as [|seg segments IH]; intros w He Hlive; [done|].
  cbn [flushSegments]. apply IH.
  - by apply flushSegment_keeps.
  - intros n Hn. apply Hlive.
    match goal with Hn : (clock (flushSegment Date seg ?ks w) <= n)%nat |- _ =>
      destruct (flushSegment_shrinks Date seg ks w) as [_ Hclk] end.
    lia.
Qed.

Lemma flushSegments_removes segments w key e :
  cache (this w) ≫= lookup_entry key = Some e ->
  (forall n, (clock w <= n)%nat -> Entry.expireTime e < Date n) ->
  segment key ∈ segments ->
  cache (this (flushSegments Date segments w)) ≫= lookup_entry key = None.
Proof.
  revert w. induction segments as [|seg segments IH]; intros w He Hexp Hin;
    [by apply not_elem_of_nil in Hin|].
  cbn [flushSegments].
  set (keys := match cache (this w) ≫= (.!! seg) with
               | Some o => Object_keys o
               | None => []
               end).
  destruct (flushSegment_shrinks Date seg keys w) as [Hs Hclk].
  destruct (cache (this (flushSegment Date seg keys w)) ≫= lookup_entry key)
    as [e'|] eqn:He'.
  - assert (e' = e) as ->.
    { destruct Hs as [_ Hs]. destruct (cache (this w)) as [st|]; [|done].
      destruct (cache (this (flushSegment Date seg keys w))) as [st1|]; [|done].
      simpl in *. destruct Hs as (Hsub & _). apply Hsub in He'. congruence. }
    apply IH; [done | intros n Hn; apply Hexp; lia |].
    apply elem_of_cons in Hin as [Hseg|]; [|done]. exfalso.
    assert (id key ∈ keys) as Hid.
    { subst keys. destruct (cache (this w)) as [st|]; [|done]. simpl in *.
      unfold lookup_entry in He. rewrite Hseg in He.
      destruct (st !! seg) as [o|]; [|done]. apply elem_of_Object_keys. eauto. }
    rewrite (flushSegment_removes seg keys w key e He Hexp Hseg Hid) in He'. done.
  - eapply shrinks_absent; [apply flushSegments_shrinks | done].
Qed.

(** X13. The sweep, whatever the clock does while it runs: it never adds
    or alters an entry, it removes every entry whose expiry time is below
    every reading from the start of the sweep on, it keeps every entry
    whose expiry time no such reading exceeds, and it leaves the difference
    between the total and the bytes present as it was. *)
Theorem sweep_on_a_moving_clock (w : World)
    (st : gmap string (gmap string Entry.t)) :
  cache (this w) = Some st ->
  exists st',
    cache (this (flushExpiredCacheItems Date w)) = Some st' /\
    (forall key e, lookup_entry key st' = Some e -> lookup_entry key st = Some e) /\
    (forall key e,
       lookup_entry key st = Some e ->
       (forall n, (clock w <= n)%nat -> Entry.expireTime e < Date n) ->
       lookup_entry key st' = None) /\
    (forall key e,
       lookup_entry key st = Some e ->
       (forall n, (clock w <= n)%nat -> Date n <= Entry.expireTime e) ->
       lookup_entry key st' = Some e) /\
    byteSize (this (flushExpiredCacheItems Date w)) - store_bytes st'
    = byteSize (this w) - store_bytes st.
Proof.
  intros Hc. destruct (flushExpiredCacheItems_shrinks Date w) as [[_ Hs] _].
  rewrite Hc in Hs.
  destruct (cache (this (flushExpiredCacheItems Date w))) as [st'|] eqn:Hc'; [|done].
  destruct Hs as (Hsub & _ & Hdrift & _).
  exists st'. split; [done|]. split; [done|].
  unfold flushExpiredCacheItems in Hc'. rewrite Hc in Hc'.
  split; [|split; [|done]].
  - intros key e He Hexp.
    assert (cache (this (flushSegments Date (Object_keys st) w)) ≫= lookup_entry key
            = None) as Hnone.
    { apply (flushSegments_removes _ w key e); [by rewrite Hc | done |].
      apply elem_of_Object_keys. unfold lookup_entry in He.
      destruct (st !! segment key); [eauto | done]. }
    by rewrite Hc' in Hnone.
  - intros key e He Hlive.
    assert (cache (this (flushSegments Date (Object_keys st) w)) ≫= lookup_entry key
            = Some e) as Hsome
      by (apply flushSegments_keeps; [by rewrite Hc | done]).
    by rewrite Hc' in Hsome.
Qed.

End MovingClock.

(** ** What every operation does to the connection *)

Section Shape.

Context {V : Type} `{JSON V}.
Variable Date : nat -> Z.

Lemma MemoryCache_stopped options c :
  MemoryCache options = Some c -> cache c = None /\ byteSize c = 0.
Proof.
  unfold MemoryCache. intros Hnew. case_match; [|done]. by injection Hnew as <-.
Qed.

Lemma shrinks_loses c c' st : cache c = Some st -> shrinks c c' -> loses c c'.
Proof.
  intros Hc [Hset Hs]. split; [done|]. rewrite Hc in Hs.
  destruct (cache c') as [st'|] eqn:Hc'; [|done].
  destruct Hs as (Hsub & Hseg & _ & Hle). exists st, st'. by repeat split.
Qed.

(** Each operation either stops the engine, starts it from stopped, leaves
    the connection alone, only loses entries, or is a successful [set]:
    the new entry stored on top of a connection that only lost entries. *)
Lemma step_shape (o : op) (w : World) :
  (o = OpStop /\
   this (step Date o w)
   = {| settings := settings (this w); cache := None; byteSize := 0 |}) \/
  (o = OpStart /\ cache (this w) = None /\
   this (step Date o w)
   = {| settings := settings (this w); cache := Some ∅; byteSize := 0 |}) \/
  this (step Date o w) = this w \/
  loses (this w) (this (step Date o w)) \/
  exists key value ttl envelope w0 w2,
    o = OpSet key value ttl /\
    ttl <= 2147483647 /\
    MemoryCacheEntry Date key value ttl (allowMixedContent (settings (this w))) w
    = (Some envelope, w0) /\
    loses (this w) (this w2) /\
    (maxByteSize (settings (this w)) ≠ 0 -> over_budget envelope w2 = false) /\
    step Date o w = store key envelope w2.
Proof.
  destruct o as [| |key|key value ttl|key]; simpl.
  - unfold start. destruct (cache (this w)) eqn:Hc; simpl; [by auto|].
    right. left. done.
  - left. done.
  - destruct (cache (this w)) as [st|] eqn:Hc.
    + rewrite (get_lookup_entry Date key w st Hc).
      destruct (lookup_entry key st) as [e|]; [|by auto].
      case_bool_decide; simpl.
      * do 3 right. left. eapply shrinks_loses; [done | apply dropKey_shrinks].
      * destruct (Entry.item e) as [bytes|s]; [|destruct (JSON_parse s)]; by auto.
    + unfold get. rewrite Hc. by auto.
  - destruct (cache (this w)) as [st|] eqn:Hc.
    + destruct (set_cases Date key value ttl w st Hc)
        as [[-> _]|(envelope & w2 & Hm & Httl & Hw2 & Hres)]; [by auto|].
      assert (loses (this w) (this w2)) as Hloses.
      { destruct (displace_flush_started Date key (Date_now Date w).2 st Hc w2)
          as (st2 & Hc2 & Hset2 & Hsub & Hseg & Hle); [tauto|].
        split; [done|]. exists st, st2. by repeat split. }
      destruct Hres as [[-> _]|[Hok Hfit]]; [by auto|].
      do 4 right. exists key, value, ttl, envelope, (Date_now Date w).2, w2.
      rewrite Hok. split; [done|]. split; [done|]. split; [done|].
      split; [exact Hloses|]. split; [exact Hfit | done].
    + unfold set. rewrite Hc. by auto.
  - unfold drop. destruct (cache (this w)) as [st|] eqn:Hc; simpl; [|by auto].
    do 3 right. left. eapply shrinks_loses; [done | apply dropKey_shrinks].
Qed.

Lemma MemoryCacheEntry_consistent key (value : jsvalue V) ttl allowMixed w envelope w0 :
  MemoryCacheEntry Date key value ttl allowMixed w = (Some envelope, w0) ->
  ttl <= 2147483647 ->
  entry_consistent allowMixed key envelope.
Proof.
  unfold MemoryCacheEntry, entry_consistent. intros Hm Httl.
  destruct allowMixed, value as [bytes|v];
    try (destruct (JSON_stringify _) as [s|]; [|done]);
    simpl in Hm; injection Hm as <- <-; simpl; repeat split; try done; lia.
Qed.

Lemma consistent_step (o : op) w :
  consistent (this w) -> consistent (this (step Date o w)).
Proof.
  intros Hcons.
  destruct (step_shape o w)
    as [[_ ->]|[(_ & _ & ->)|[->|[Hl|(key & value & ttl & envelope & w0 & w2 &
          _ & Httl & Hm & Hl & _ & ->)]]]]; try done.
  - intros st key e [= <-]. done.
  - destruct Hl as (Hset & st & st' & Hc & Hc' & Hsub & _).
    intros st0 key e Hc0 He. rewrite Hc' in Hc0. injection Hc0 as <-.
    rewrite Hset. eapply Hcons; eauto.
  - destruct Hl as (Hset & st & st2 & Hc & Hc2 & Hsub & _).
    destruct (store_spec key envelope w2 st2 Hc2) as (Hc' & Hset' & _).
    intros st0 key' e Hc0 He. rewrite Hc' in Hc0. injection Hc0 as <-.
    rewrite Hset', Hset. rewrite lookup_entry_insert_entry in He.
    destruct (decide (key' = key)) as [->|].
    + injection He as <-. by eapply MemoryCacheEntry_consistent.
    + eapply Hcons; eauto.
Qed.

(** X14. Every entry in the cache of an engine built by the constructor
    and driven by any operations is as its constructor made it: it expires
    at [stored + ttl], its ttl passed the guard, its [byteSize] is 144 plus
    the size of its snapshot plus the lengths of the segment name and id
    it is stored under, and its snapshot is a buffer only on an engine that
    allows mixed content. *)
Theorem stored_entries_are_consistent
    (options : option Options) (c : Connection) (ops : list op) (n : nat) :
  MemoryCache options = Some c ->
  consistent (this (run Date ops {| this := c; clock := n |})).
Proof.
  intros Hnew.
  assert (consistent c) as Hcons.
  { destruct (MemoryCache_stopped options c Hnew) as [Hnone _].
    intros st key e Hst. congruence. }
  assert (forall w, consistent (this w) -> consistent (this (run Date ops w))) as Hrun.
  { induction ops as [|o ops IH]; intros w Hw; [done|].
    simpl. apply IH. by apply consistent_step. }
  by apply Hrun.
Qed.

Lemma budget_step (o : op) w :
  valid (this w) -> within_budget (this w) -> within_budget (this (step Date o w)).
Proof.
  intros [Hmax Hent] Hb.
  assert (forall c', loses (this w) c' -> within_budget c') as Hloses.
  { intros c' (Hset & st & st' & Hc & Hc' & _ & _ & Hle). unfold within_budget in *.
    rewrite Hset. intros Hne. specialize (Hb Hne).
    assert (byteSize c' <= byteSize (this w)); [|lia].
    apply Hle. intros key e He. specialize (Hent st key e Hc He). lia. }
  destruct (step_shape o w)
    as [[_ ->]|[(_ & _ & ->)|[->|[Hl|(key & value & ttl & envelope & w0 & w2 &
          _ & Httl & Hm & Hl & Hfit & ->)]]]]; try done; auto.
  - unfold within_budget. simpl. lia.
  - unfold within_budget. simpl. lia.
  - destruct Hl as (Hset & st & st2 & Hc & Hc2 & _).
    destruct (store_spec key envelope w2 st2 Hc2) as (_ & Hset' & Hb' & _).
    unfold within_budget. rewrite Hset', Hb', Hset. intros Hne.
    specialize (Hfit Hne). unfold over_budget in Hfit.
    apply bool_decide_eq_false in Hfit. rewrite Hset in Hfit. lia.
Qed.

(** X15. On an engine built by the constructor, with a budget other than
    0, the recorded total never exceeds the budget, whatever operations are
    run. *)
Theorem recorded_total_stays_within_budget
    (options : option Options) (c : Connection) (ops : list op) (n : nat) :
  MemoryCache options = Some c ->
  within_budget (this (run Date ops {| this := c; clock := n |})).
Proof.
  intros Hnew.
  assert (valid c) as Hv by by eapply valid_new.
  assert (within_budget c) as Hb.
  { destruct (MemoryCache_stopped options c Hnew) as [_ Hzero].
    destruct Hv as [Hmax _]. unfold within_budget. lia. }
  assert (forall w, valid (this w) -> within_budget (this w) ->
            within_budget (this (run Date ops w))) as Hrun.
  { induction ops as [|o ops IH]; intros w Hvw Hbw; [done|].
    simpl. apply IH; [by apply valid_step | by apply budget_step]. }
  by apply Hrun.
Qed.

End Shape.

Section Segments.

Context {V : Type} `{JSON V}.
Variable Date : nat -> Z.

(** X16. Only [stop] ever removes a segment: after any other operation
    on a started engine, every segment that was in the cache is still
    there, even when [drop], an expired [get] or the sweep has emptied
    it. *)
Theorem segments_outlive_their_entries (o : op) (w : World)
    (st : gmap string (gmap string Entry.t)) :
  o ≠ OpStop ->
  cache (this w) = Some st ->
  exists st',
    cache (this (step Date o w)) = Some st' /\
    forall s, is_Some (st !! s) -> is_Some (st' !! s).
Proof.
  intros Ho Hc.
  destruct (step_shape Date o w)
    as [[? _]|[(_ & Hnone & _)|[->|[Hl|(key & value & ttl & envelope & w0 & w2 &
          _ & _ & _ & Hl & _ & ->)]]]]; [done | congruence | by exists st | |].
  - destruct Hl as (_ & st0 & st' & Hc0 & Hc' & _ & Hseg & _).
    rewrite Hc in Hc0. injection Hc0 as <-. by exists st'.
  - destruct Hl as (_ & st0 & st2 & Hc0 & Hc2 & _ & Hseg & _).
    rewrite Hc in Hc0. injection Hc0 as <-.
    destruct (store_spec key envelope w2 st2 Hc2) as (Hc' & _).
    eexists. split; [exact Hc'|]. intros s Hs. unfold insert_entry.
    destruct (decide (segment key = s)) as [<-|].
    + rewrite lookup_insert_eq. eauto.
    + rewrite lookup_insert_ne by done. auto.
Qed.

End Segments.

(** ** Runs on plain keys *)

Section PlainRuns.

Context {V : Type} `{JSON V}.
Variable Date : nat -> Z.

Lemma plain_flushSegment seg keys w :
  plain_connection (this w) ->
  plain_connection (this (flushSegment Date seg keys w)).
Proof.
  revert w. induction keys as [|i keys IH]; intros w Hplain; [done|].
  simpl. apply IH. destruct (cache (this w) ≫= _); simpl; [|done].
  case_bool_decide; simpl; [by apply plain_dropKey | done].
Qed.

Lemma plain_flush w :
  plain_connection (this w) ->
  plain_connection (this (flushExpiredCacheItems Date w)).
Proof.
  unfold flushExpiredCacheItems. destruct (cache (this w)) as [st|]; [|done].
  generalize (Object_keys st). intros segments. revert w.
  induction segments as [|seg segments IH]; intros w Hplain; [done|].
  cbn [flushSegments]. by apply IH, plain_flushSegment.
Qed.

Lemma plain_displace key w :
  plain_key key ->
  plain_connection (this w) ->
  plain_connection (this (displace Date key w)).
Proof.
  intros [Hseg _] Hplain. unfold displace.
  destruct (cache (this w)) as [st|] eqn:Hc; [|done].
  specialize (Hplain st Hc).
  set (st0 := match st !! segment key with
              | Some _ => st
              | None => <[segment key := ∅]> st
              end).
  assert (plain_store st0) as Hplain0.
  { subst st0. destruct (st !! segment key) eqn:Hk; [done|].
    intros s seg' Hs. destruct (decide (segment key = s)) as [<-|Hne].
    - rewrite lookup_insert_eq in Hs. injection Hs as <-. split; [done|].
      intros i e Hi. by rewrite lookup_empty in Hi.
    - rewrite lookup_insert_ne in Hs by done. by eapply Hplain. }
  destruct (lookup_entry key st0); simpl; [case_bool_decide|]; simpl;
    by intros st' [= <-].
Qed.

Lemma plain_step (o : op) w :
  plain_op o ->
  plain_connection (this w) ->
  plain_connection (this (step Date o w)).
Proof.
  intros Ho Hplain. destruct o as [| |key|key value ttl|key]; simpl in *.
  - unfold start. destruct (cache (this w)); [done|]. simpl.
    intros st [= <-]. apply plain_store_empty.
  - by intros st.
  - destruct (cache (this w)) as [st|] eqn:Hc.
    + rewrite (get_lookup_entry Date key w st Hc).
      destruct (lookup_entry key st) as [e|]; [|done].
      case_bool_decide; simpl; [by apply plain_dropKey|].
      destruct (Entry.item e) as [bytes|s]; [|destruct (JSON_parse s)]; done.
    + unfold get. by rewrite Hc.
  - destruct (cache (this w)) as [st|] eqn:Hc.
    + destruct (set_cases Date key value ttl w st Hc)
        as [[-> _]|(envelope & w2 & _ & _ & Hw2 & Hres)]; [done|].
      assert (plain_connection (this w2)) as Hplain2.
      { assert (plain_connection (this (displace Date key (Date_now Date w).2)))
          by by apply plain_displace.
        destruct Hw2 as [->|[_ ->]]; [done | by apply plain_flush]. }
      destruct Hres as [[-> _]|[-> _]]; [done|]. simpl.
      intros st' Hc'. destruct (cache (this w2)) as [st2|] eqn:Hc2; [|done].
      simpl in Hc'. injection Hc' as <-. by apply plain_insert_entry, Hplain2.
    + unfold set. by rewrite Hc.
  - unfold drop. destruct (cache (this w)); [|done]. simpl. by apply plain_dropKey.
Qed.

(** Operations on plain keys keep the cache plain: the hypothesis
    [plain_store] of the theorems holds of every state they reach. *)
Lemma plain_run (ops : list op) w :
  Forall plain_op ops ->
  plain_connection (this w) ->
  plain_connection (this (run Date ops w)).
Proof.
  intros Hops. revert w. induction Hops as [|o ops Ho _ IH]; intros w Hplain; [done|].
  simpl. by apply IH, plain_step.
Qed.

End PlainRuns.

(** ** The further theorems at concrete inputs *)

Lemma stop_discards_every_entry_witness :
  own_name (segment key_a) /\
  isReady (stop filled_world) = false /\
  cache (this (start (stop filled_world)).2) = Some ∅ /\
  byteSize (this (start (stop filled_world)).2) = 0 /\
  get (V := literal) (frozen 0) key_a (start (stop filled_world)).2
  = (Ok None, (start (stop filled_world)).2).
Proof.
  split; [exact own_name_s|].
  exact (stop_discards_every_entry (V := literal) (frozen 0) key_a filled_world
           own_name_s).
Defined.

Lemma drop_removes_one_key_witness :
  cache (this filled_world) = Some (single (entry_true 0 1000)) /\
  plain_store (single (entry_true 0 1000)) /\
  plain_key key_a /\
  exists st',
    drop key_a filled_world
    = (Ok (), {| this := {| settings := settings (this filled_world);
                            cache := Some st';
                            byteSize := byteSize (this filled_world)
                                        - entry_bytes key_a (single (entry_true 0 1000)) |};
                 clock := clock filled_world |}) /\
    (forall key', lookup_entry key' st'
                  = if decide (key' = key_a) then None
                    else lookup_entry key' (single (entry_true 0 1000))) /\
    store_bytes st'
    = store_bytes (single (entry_true 0 1000))
      - entry_bytes key_a (single (entry_true 0 1000)).
Proof.
  assert (cache (this filled_world) = Some (single (entry_true 0 1000))) as Hc
    by (vm_compute; reflexivity).
  split; [exact Hc|]. split; [exact (plain_store_single _)|].
  split; [exact plain_key_a|].
  exact (drop_removes_one_key key_a filled_world _ Hc (plain_store_single _)
           plain_key_a).
Defined.

Lemma drop_is_idempotent_witness :
  plain_key key_a /\
  (forall st, cache (this filled_world) = Some st -> plain_store st) /\
  (drop key_a (drop key_a filled_world).2).2 = (drop key_a filled_world).2.
Proof.
  assert (forall st, cache (this filled_world) = Some st -> plain_store st) as Hplain.
  { intros st Hc.
    assert (cache (this filled_world) = Some (single (entry_true 0 1000))) as Hc'
      by (vm_compute; reflexivity).
    rewrite Hc' in Hc. injection Hc as <-. apply plain_store_single. }
  split; [exact plain_key_a|]. split; [exact Hplain|].
  exact (drop_is_idempotent key_a filled_world plain_key_a Hplain).
Defined.

Lemma get_after_drop_is_absent_witness :
  cache (this filled_world) = Some (single (entry_true 0 1000)) /\
  plain_store (single (entry_true 0 1000)) /\
  plain_key key_a /\
  get (V := literal) (frozen 0) key_a (drop key_a filled_world).2
  = (Ok None, (drop key_a filled_world).2).
Proof.
  assert (cache (this filled_world) = Some (single (entry_true 0 1000))) as Hc
    by (vm_compute; reflexivity).
  split; [exact Hc|]. split; [exact (plain_store_single _)|].
  split; [exact plain_key_a|].
  exact (get_after_drop_is_absent (V := literal) (frozen 0) key_a filled_world _ Hc
           (plain_store_single _) plain_key_a).
Defined.

Lemma get_is_read_only_while_unexpired_witness :
  cache (this filled_world) = Some (single (entry_true 0 1000)) /\
  plain_store (single (entry_true 0 1000)) /\
  plain_key key_a /\
  lookup_entry key_a (single (entry_true 0 1000)) = Some (entry_true 0 1000) /\
  frozen 0 (clock filled_world) <= Entry.expireTime (entry_true 0 1000) /\
  this (get (V := literal) (frozen 0) key_a filled_world).2 = this filled_world /\
  clock (get (V := literal) (frozen 0) key_a filled_world).2 = S (clock filled_world) /\
  (get (V := literal) (frozen 0) key_a filled_world).1 ≠ Ok None.
Proof.
  assert (cache (this filled_world) = Some (single (entry_true 0 1000))) as Hc
    by (vm_compute; reflexivity).
  assert (lookup_entry key_a (single (entry_true 0 1000)) = Some (entry_true 0 1000))
    as He by (vm_compute; reflexivity).
  assert (frozen 0 (clock filled_world) <= Entry.expireTime (entry_true 0 1000))
    as Hlive by (vm_compute; discriminate).
  split; [exact Hc|]. split; [exact (plain_store_single _)|].
  split; [exact plain_key_a|]. split; [exact He|]. split; [exact Hlive|].
  exact (proj2 (get_is_read_only_while_unexpired (V := literal) (frozen 0) key_a
                  filled_world _ Hc (plain_store_single _) plain_key_a) _ He Hlive).
Defined.

(** A value that does not serialize: the cyclic object of the second
    fragment.  [set] hands back the encoding error and the state is as it
    was. *)
Lemma set_encoding_failure_is_atomic_witness :
  cache (this started_world) = Some ∅ /\
  1000 <= 2147483647 /\
  @JSON_stringify sample sample_JSON (Plain SCyclic) = None /\
  @set sample sample_JSON (frozen 0) key_a (Plain SCyclic) 1000 started_world
  = (Err EncodingError, started_world).
Proof.
  assert (cache (this started_world) = Some ∅) as Hc by reflexivity.
  assert (1000 <= 2147483647) as Httl by lia.
  split; [exact Hc|]. split; [exact Httl|]. split; [reflexivity|].
  destruct (@set_encoding_failure_is_atomic sample sample_JSON (frozen 0) key_a
              (Plain SCyclic) 1000 started_world ∅ Hc Httl) as [Hiff Hatomic].
  apply Hatomic, Hiff. reflexivity.
Defined.

Lemma set_leaves_other_keys_witness :
  cache (this filled_world) = Some (single (entry_true 0 1000)) /\
  plain_store (single (entry_true 0 1000)) /\
  plain_key {| segment := "s"; id := "b" |} /\
  plain_key key_a /\
  key_a ≠ {| segment := "s"; id := "b" |} /\
  exists st',
    cache (this (set (frozen 0) {| segment := "s"; id := "b" |} (Plain JFalse) 1000
                   filled_world).2) = Some st' /\
    (forall e, lookup_entry key_a st' = Some e ->
               lookup_entry key_a (single (entry_true 0 1000)) = Some e) /\
    (maxByteSize (settings (this filled_world)) = 0 ->
     lookup_entry key_a st' = lookup_entry key_a (single (entry_true 0 1000))).
Proof.
  assert (cache (this filled_world) = Some (single (entry_true 0 1000))) as Hc
    by (vm_compute; reflexivity).
  assert (plain_key {| segment := "s"; id := "b" |}) as Hb
    by (split; [exact own_name_s | exact own_name_b]).
  assert (key_a ≠ {| segment := "s"; id := "b" |}) as Hne by discriminate.
  split; [exact Hc|]. split; [exact (plain_store_single _)|]. split; [exact Hb|].
  split; [exact plain_key_a|]. split; [exact Hne|].
  exact (set_leaves_other_keys (frozen 0) {| segment := "s"; id := "b" |} key_a
           (Plain JFalse) 1000 filled_world _ Hc (plain_store_single _) Hb
           plain_key_a Hne).
Defined.

Lemma set_succeeds_when_it_fits_witness :
  valid (this filled_world) /\
  cache (this filled_world) = Some (single (entry_true 0 1000)) /\
  plain_store (single (entry_true 0 1000)) /\
  plain_key key_a /\
  1000 <= 2147483647 /\
  MemoryCacheEntry (frozen 0) key_a (Plain JFalse) 1000 false filled_world
  = (Some (entry_false 0 1000), (Date_now (frozen 0) filled_world).2) /\
  (maxByteSize (settings (this filled_world)) = 0 \/
   byteSize (this filled_world) + Entry.byteSize (entry_false 0 1000)
   <= maxByteSize (settings (this filled_world))) /\
  exists st',
    (set (frozen 0) key_a (Plain JFalse) 1000 filled_world).1 = Ok () /\
    cache (this (set (frozen 0) key_a (Plain JFalse) 1000 filled_world).2) = Some st' /\
    lookup_entry key_a st' = Some (entry_false 0 1000).
Proof.
  assert (valid (this filled_world)) as Hv.
  { apply (valid_run (V := literal)), (valid_new None). reflexivity. }
  assert (cache (this filled_world) = Some (single (entry_true 0 1000))) as Hc
    by (vm_compute; reflexivity).
  assert (1000 <= 2147483647) as Httl by lia.
  assert (MemoryCacheEntry (frozen 0) key_a (Plain JFalse) 1000
            (allowMixedContent (settings (this filled_world))) filled_world
          = (Some (entry_false 0 1000), (Date_now (frozen 0) filled_world).2)) as Hm
    by (vm_compute; reflexivity).
  assert (maxByteSize (settings (this filled_world)) = 0 \/
          byteSize (this filled_world) + Entry.byteSize (entry_false 0 1000)
          <= maxByteSize (settings (this filled_world))) as Hfits
    by (right; vm_compute; discriminate).
  split; [exact Hv|]. split; [exact Hc|]. split; [exact (plain_store_single _)|].
  split; [exact plain_key_a|]. split; [exact Httl|].
  split; [exact Hm|]. split; [exact Hfits|].
  exact (set_succeeds_when_it_fits (frozen 0) key_a (Plain JFalse) 1000 filled_world
           _ _ _ Hv Hc (plain_store_single _) plain_key_a Httl Hm Hfits).
Defined.

Lemma sweep_on_a_moving_clock_witness :
  cache (this stale_world) = Some (single (entry_true 0 0)) /\
  exists st',
    cache (this (flushExpiredCacheItems ticking stale_world)) = Some st' /\
    (forall key e, lookup_entry key st' = Some e ->
                   lookup_entry key (single (entry_true 0 0)) = Some e) /\
    (forall key e,
       lookup_entry key (single (entry_true 0 0)) = Some e ->
       (forall n, (clock stale_world <= n)%nat -> Entry.expireTime e < ticking n) ->
       lookup_entry key st' = None) /\
    (forall key e,
       lookup_entry key (single (entry_true 0 0)) = Some e ->
       (forall n, (clock stale_world <= n)%nat -> ticking n <= Entry.expireTime e) ->
       lookup_entry key st' = Some e) /\
    byteSize (this (flushExpiredCacheItems ticking stale_world)) - store_bytes st'
    = byteSize (this stale_world) - store_bytes (single (entry_true 0 0)).
Proof.
  assert (cache (this stale_world) = Some (single (entry_true 0 0))) as Hc
    by (vm_compute; reflexivity).
  split; [exact Hc|].
  exact (sweep_on_a_moving_clock ticking stale_world _ Hc).
Defined.

Lemma stored_entries_are_consistent_witness :
  MemoryCache (Some mixed_options) = Some mixed_connection /\
  consistent (this (run (frozen 0)
                      [OpStart; OpSet key_a (@Buffer literal [x01; x02]%byte) 1000]
                      {| this := mixed_connection; clock := 0 |})).
Proof.
  assert (MemoryCache (Some mixed_options) = Some mixed_connection) as Hnew
    by reflexivity.
  split; [exact Hnew|].
  exact (stored_entries_are_consistent (frozen 0) (Some mixed_options) mixed_connection
           [OpStart; OpSet key_a (@Buffer literal [x01; x02]%byte) 1000] 0 Hnew).
Defined.

Lemma recorded_total_stays_within_budget_witness :
  MemoryCache (Some tight_options) = Some tight_connection /\
  within_budget (this (run (frozen 0)
                         [OpStart; OpSet key_a (Plain JTrue) 1000;
                          OpSet key_a (Plain JFalse) 1000]
                         {| this := tight_connection; clock := 0 |})).
Proof.
  assert (MemoryCache (Some tight_options) = Some tight_connection) as Hnew
    by reflexivity.
  split; [exact Hnew|].
  exact (recorded_total_stays_within_budget (frozen 0) (Some tight_options)
           tight_connection
           [OpStart; OpSet key_a (Plain JTrue) 1000; OpSet key_a (Plain JFalse) 1000]
           0 Hnew).
Defined.

Lemma segments_outlive_their_entries_witness :
  OpDrop (V := literal) key_a ≠ OpStop /\
  cache (this filled_world) = Some (single (entry_true 0 1000)) /\
  exists st',
    cache (this (step (frozen 0) (OpDrop (V := literal) key_a) filled_world)) = Some st' /\
    forall s, is_Some (single (entry_true 0 1000) !! s) -> is_Some (st' !! s).
Proof.
  assert (OpDrop (V := literal) key_a ≠ OpStop) as Ho by discriminate.
  assert (cache (this filled_world) = Some (single (entry_true 0 1000))) as Hc
    by (vm_compute; reflexivity).
  split; [exact Ho|]. split; [exact Hc|].
  exact (segments_outlive_their_entries (frozen 0) (OpDrop key_a) filled_world _ Ho Hc).
Defined.

Lemma set_accounts_for_live_entry_witness :
  cache (this filled_world) = Some (single (entry_true 0 1000)) /\
  plain_store (single (entry_true 0 1000)) /\
  plain_key key_a /\
  (forall n, (clock filled_world <= n)%nat -> frozen 0 n = 0) /\
  0 < Entry.expireTime (entry_true 0 1000) /\
  set (frozen 0) key_a (Plain JFalse) 1000 filled_world
  = (Ok (), (set (frozen 0) key_a (Plain JFalse) 1000 filled_world).2) /\
  exists st' envelope,
    MemoryCacheEntry (frozen 0) key_a (Plain JFalse) 1000
      (allowMixedContent (settings (this filled_world))) filled_world
    = (Some envelope, (Date_now (frozen 0) filled_world).2) /\
    cache (this (set (frozen 0) key_a (Plain JFalse) 1000 filled_world).2) = Some st' /\
    lookup_entry key_a st' = Some envelope /\
    byteSize (this (set (frozen 0) key_a (Plain JFalse) 1000 filled_world).2)
    - store_bytes st'
    = byteSize (this filled_world) - store_bytes (single (entry_true 0 1000)).
Proof.
  assert (cache (this filled_world) = Some (single (entry_true 0 1000))) as Hc
    by (vm_compute; reflexivity).
  assert (forall n, (clock filled_world <= n)%nat -> frozen 0 n = 0) as Hnow
    by (intros; reflexivity).
  assert (0 < Entry.expireTime (entry_true 0 1000)) as Hlive
    by (vm_compute; reflexivity).
  assert (set (frozen 0) key_a (Plain JFalse) 1000 filled_world
          = (Ok (), (set (frozen 0) key_a (Plain JFalse) 1000 filled_world).2)) as Hset
    by (vm_compute; reflexivity).
  split; [exact Hc|]. split; [exact (plain_store_single _)|].
  split; [exact plain_key_a|]. split; [exact Hnow|]. split; [exact Hlive|].
  split; [exact Hset|].
  refine (set_accounts_for_live_entry (frozen 0) key_a (Plain JFalse) 1000 filled_world
            _ _ 0 Hc (plain_store_single _) plain_key_a Hnow _ Hset).
  replace (lookup_entry key_a (single (entry_true 0 1000)))
    with (Some (entry_true 0 1000)) by (vm_compute; reflexivity).
  exact Hlive.
Defined.
